(** * RegionFileUpdater: a shallow embedding of [region_file_updater/__init__.py]

    The plugin keeps three module-level lists (the regions waiting for an
    update, the protected regions and the outcome of the last update), a
    JSON side file holding the protected regions, and an update procedure
    that stops the server, copies or deletes region files and starts the
    server again.

    Python integers are unbounded and are modelled by [Z]; player
    coordinates are floats and are modelled by the rationals they denote
    ([Q]); Python lists are [list]s; the configuration dictionary is a
    [gmap]; module globals are the fields of a [World] record that is
    threaded through a state-and-exception monad. *)

From Stdlib Require Import ZArith QArith Qround Lia Ascii String.
From stdpp Require Import base tactics option list strings gmap pretty.

Open Scope Z_scope.
Open Scope string_scope.
Open Scope list_scope.

(** ** Exceptions *)

(** The exceptions the modelled code can meet.  [OSError] stands for every
    error of the file system ([FileNotFoundError], [PermissionError],
    [shutil.SameFileError], ...). *)
Inductive exn : Type :=
  | KeyError (key : string)
  | TypeError
  | ValueError
  | JSONDecodeError
  | OSError (what : string).

#[global] Instance exn_eq_dec : EqDecision exn.
Proof. solve_decision. Defined.

(** ** Paths *)

(** [os.path.join a b] for two components (POSIX flavour): an absolute [b]
    replaces [a]; otherwise the two are glued with exactly one separator
    unless [a] is empty or already ends with one. *)
Definition ends_with_sep (a : string) : bool :=
  match last (String.list_ascii_of_string a) with
  | Some c => bool_decide (c = "/"%char)
  | None => false
  end.

Definition starts_with_sep (b : string) : bool :=
  match b with
  | String c _ => bool_decide (c = "/"%char)
  | EmptyString => false
  end.

Definition path_join (a b : string) : string :=
  if starts_with_sep b then b
  else if bool_decide (a = "") || ends_with_sep a then a +:+ b
  else a +:+ "/" +:+ b.

(** ** Configuration *)

(** A value of [dimension_region_folder]: [str | list[str]].  The
    configuration is deserialised against this annotation, so the third
    case of [to_file_list] (neither a string nor an iterable, giving no
    file at all) does not arise. *)
Inductive Folders : Type :=
  | FolderStr (folder : string)
  | FolderList (folders : list string).

Record Config : Type := mkConfig {
  enabled : bool;
  protected_region_file_name : string;
  source_world_directory : string;
  destination_world_directory : string;
  dimension_region_folder : gmap string Folders
}.

(** The class attributes of [Config], i.e. the default configuration. *)
Definition default_config : Config :=
  {| enabled := true;
     protected_region_file_name := "protected-regions.json";
     source_world_directory := "./qb_multi/slot1/world";
     destination_world_directory := "./server/world";
     dimension_region_folder :=
       <[ "-1" := FolderList ["DIM-1/region"; "DIM-1/poi"] ]>
       (<[ "0" := FolderList ["region"; "poi"] ]>
       (<[ "1" := FolderList ["DIM1/region"; "DIM1/poi"] ]> ∅)) |}.

(** ** Regions *)

Module Region.

Record t : Type := mk { x : Z; z : Z; dim : Z }.

#[global] Instance eq_dec : EqDecision t.
Proof. solve_decision. Defined.

(** [__eq__] between two regions. *)
Definition eqb (self other : t) : bool :=
  Z.eqb (x self) (x other) && Z.eqb (z self) (z other)
  && Z.eqb (dim self) (dim other).

(** [f"r.{self.x}.{self.z}.mca"]; [pretty] prints a [Z] the way [str]
    prints an [int]. *)
Definition to_file_name (self : t) : string :=
  "r." +:+ pretty (x self) +:+ "." +:+ pretty (z self) +:+ ".mca".

(** The folders a [Folders] value stands for: a lone string is a list of
    one (not in the source; used to state what [to_file_list] returns). *)
Definition folder_names (folders : Folders) : list string :=
  match folders with
  | FolderStr folder => [folder]
  | FolderList l => l
  end.

(** [to_file_list]: the subscript [config.dimension_region_folder[str(self.dim)]]
    raises [KeyError] on a missing key; [file_list] starts empty and gets
    one joined path for a string, one per element for a list. *)
Definition to_file_list (mapping : gmap string Folders) (self : t)
  : exn + list string :=
  match mapping !! pretty (dim self) with
  | None => inl (KeyError (pretty (dim self)))
  | Some (FolderStr folders) =>
      inr [path_join folders (to_file_name self)]
  | Some (FolderList folders) =>
      inr (map (fun folder => path_join folder (to_file_name self)) folders)
  end.

End Region.

(** ** Player coordinates *)

(** [int(v)] on a float: truncation toward zero.  A finite float is the
    rational it denotes; [nan] and the infinities, on which [int] raises,
    are not among the coordinates considered. *)
Definition int_of_float (v : Q) : Z := Z.quot (Qnum v) (Zpos (Qden v)).

(** Who issued a command.  For a player the record holds what
    [minecraft_data_api] answers for that player: the coordinate (a float
    per axis) and the dimension. *)
Inductive CommandSource : Type :=
  | PlayerCommandSource (coord_x coord_y coord_z : Q) (dimension : Z)
  | ConsoleCommandSource.

(** [get_region_from_source]; only called on player sources, hence the
    [option].  [//] on integers is the floor division [Z.div]. *)
Definition get_region_from_source (source : CommandSource) : option Region.t :=
  match source with
  | PlayerCommandSource cx _ cz d =>
      Some (Region.mk (int_of_float cx / 512) (int_of_float cz / 512) d)
  | ConsoleCommandSource => None
  end.

(** ** JSON values and file contents *)

#[local] Unset Elimination Schemes.
(** What [json.load] returns and [json.dump] takes.  A float is given, as
    for the coordinates, by the rational it denotes. *)
Inductive json : Type :=
  | JNull
  | JBool (b : bool)
  | JInt (n : Z)
  | JFloat (v : Q)
  | JStr (s : string)
  | JArr (items : list json)
  | JObj (members : list (string * json)).
#[local] Set Elimination Schemes.

(** Modelled from the spec: MCDR's [serialize] is imported, not under src/;
    the spec gives the persisted layout as an order-preserving JSON array
    of objects with the members x, z and dim. *)
Definition serialize_region (r : Region.t) : json :=
  JObj [("x", JInt (Region.x r)); ("z", JInt (Region.z r));
        ("dim", JInt (Region.dim r))].

Definition serialize (l : list Region.t) : json := JArr (map serialize_region l).

(** The value a key has in the [dict] built from a JSON object: the last
    member with that key wins. *)
Fixpoint dict_get (members : list (string * json)) (key : string) : option json :=
  match members with
  | [] => None
  | (k, v) :: rest =>
      match dict_get rest key with
      | Some v' => Some v'
      | None => if bool_decide (k = key) then Some v else None
      end
  end.

(** [r[key]] for a string key. *)
Definition json_getitem (r : json) (key : string) : exn + json :=
  match r with
  | JObj members =>
      match dict_get members key with
      | Some v => inr v
      | None => inl (KeyError key)
      end
  | _ => inl TypeError
  end.

(** The items a [for r in data] visits: the elements of an array, the keys
    of an object, the characters of a string; anything else is not
    iterable. *)
Definition json_iter (data : json) : exn + list json :=
  match data with
  | JArr items => inr items
  | JObj members => inr (map (fun kv => JStr (fst kv)) members)
  | JStr s => inr (map (fun c => JStr (String c EmptyString)) (String.list_ascii_of_string s))
  | _ => inl TypeError
  end.

(** [Region(r["x"], r["z"], r["dim"])]: the three subscripts are evaluated
    from left to right and the first one that fails raises.
    [Region.__init__] stores what it is given and checks nothing, so that a
    member that is not an integer does not raise: it gives a [Region]
    object whose fields are not the integers the annotations of [__init__]
    ask for and which [Region.t] cannot hold.  That object is [None]
    here. *)
Definition region_of_entry (r : json) : exn + option Region.t :=
  match json_getitem r "x" with
  | inl e => inl e
  | inr vx =>
      match json_getitem r "z" with
      | inl e => inl e
      | inr vz =>
          match json_getitem r "dim" with
          | inl e => inl e
          | inr vd =>
              match vx, vz, vd with
              | JInt x, JInt z, JInt dim => inr (Some (Region.mk x z dim))
              | _, _, _ => inr None
              end
          end
      end
  end.

(** How [acc.extend(Region(...) for r in items)] ended. *)
Inductive extension : Type :=
  | Extended                  (* every item gave a region *)
  | Stopped (e : exn)         (* building a region from an item raised *)
  | NotIntegers.              (* an item gave a region with a field that is
                                 not an integer; the code goes on with it *)

(** [acc.extend(Region(...) for r in items)]: the generator is consumed one
    item at a time, each region is appended as soon as it is built, and an
    exception stops the extension where it stands.  The list returned is
    the list as it is when the extension ends or, for [NotIntegers], when
    the first region that [Region.t] cannot hold is appended. *)
Fixpoint extend_regions (acc : list Region.t) (items : list json)
  : list Region.t * extension :=
  match items with
  | [] => (acc, Extended)
  | r :: rest =>
      match region_of_entry r with
      | inl e => (acc, Stopped e)
      | inr None => (acc, NotIntegers)
      | inr (Some region) => extend_regions (acc ++ [region]) rest
      end
  end.

(** A file holds either a text that [json.load] parses, given by the value
    it parses to, or data that [json.load] rejects. *)
Inductive content : Type :=
  | JsonText (value : json)
  | NotJson (data : string).

(** ** The file system *)

(** The operations of [os] and [shutil] the plugin calls.  Each may fail
    with an exception, except [os.path.isfile], which answers [False]
    instead.  An operation that changes the file system answers with the
    file system it leaves behind and with the exception it raised, if any:
    [open(path, "w")] and [shutil.copyfile] truncate their target before
    they write, so that a call that fails need not leave things as they
    were.  [fs_write d path c] is [open(path, "w")] followed by the dump of
    [c] into the file. *)
Class FileSystem (FS : Type) : Type := {
  fs_isfile : FS → string → bool;
  fs_remove : FS → string → FS * option exn;
  fs_copyfile : FS → string → string → FS * option exn;
  fs_read : FS → string → exn + content;
  fs_write : FS → string → content → FS * option exn
}.

(** What is expected of a file that was just written. *)
Class FileSystemLaws (FS : Type) `{!FileSystem FS} : Prop := {
  fs_write_isfile : ∀ (fs fs' : FS) p c,
    fs_write fs p c = (fs', None) → fs_isfile fs' p = true;
  fs_write_read : ∀ (fs fs' : FS) p c,
    fs_write fs p c = (fs', None) → fs_read fs' p = inr c
}.

(** A file system in memory, for the concrete runs: the regular files by
    path, and the paths that cannot be written or removed.  Every
    directory is taken to exist.  A call that fails here fails before it
    touches anything (the permission is refused when the file is
    opened). *)
Record MemFS : Type := mkMemFS {
  files : gmap string content;
  locked : gset string
}.

Definition mem_remove (fs : MemFS) (p : string) : MemFS * option exn :=
  if bool_decide (p ∈ locked fs) then (fs, Some (OSError "permission denied"))
  else match files fs !! p with
       | Some _ => (mkMemFS (delete p (files fs)) (locked fs), None)
       | None => (fs, Some (OSError "no such file"))
       end.

Definition mem_copyfile (fs : MemFS) (src dst : string) : MemFS * option exn :=
  match files fs !! src with
  | None => (fs, Some (OSError "no such file"))
  | Some c =>
      if bool_decide (src = dst) then (fs, Some (OSError "same file"))
      else if bool_decide (dst ∈ locked fs) then (fs, Some (OSError "permission denied"))
      else (mkMemFS (<[dst := c]> (files fs)) (locked fs), None)
  end.

Definition mem_read (fs : MemFS) (p : string) : exn + content :=
  match files fs !! p with
  | Some c => inr c
  | None => inl (OSError "no such file")
  end.

Definition mem_write (fs : MemFS) (p : string) (c : content) : MemFS * option exn :=
  if bool_decide (p ∈ locked fs) then (fs, Some (OSError "permission denied"))
  else (mkMemFS (<[p := c]> (files fs)) (locked fs), None).

#[global] Instance MemFS_FileSystem : FileSystem MemFS := {|
  fs_isfile fs p := bool_decide (is_Some (files fs !! p));
  fs_remove := mem_remove;
  fs_copyfile := mem_copyfile;
  fs_read := mem_read;
  fs_write := mem_write
|}.

#[global] Instance MemFS_FileSystemLaws : FileSystemLaws MemFS.
Proof.
  split; intros fs fs' p c; simpl; unfold mem_write, mem_read;
    case_bool_decide; intros [= <-]; simpl; rewrite lookup_insert_eq;
    [apply bool_decide_eq_true; eauto | reflexivity].
Qed.

(** ** What the plugin says and does to its surroundings *)

(** The texts [source.reply] sends, one constructor per format string. *)
Inductive Msg : Type :=
  | MsgAlreadyListed                        (* add_region: already in the list *)
  | MsgAdded (r : Region.t)                 (* add_region: added *)
  | MsgNotListed                            (* delete_region: not in the list *)
  | MsgDeleted (r : Region.t)               (* delete_region: deleted *)
  | MsgListCleared                          (* clean_region_list *)
  | MsgAlreadyProtected                     (* protect_region: already protected *)
  | MsgUnlistedAndProtected (r : Region.t)  (* protect_region: removed from the list and protected *)
  | MsgProtected (r : Region.t)             (* protect_region: protected *)
  | MsgDeprotected (r : Region.t)           (* deprotect_region: protection lifted *)
  | MsgNotProtected                         (* deprotect_region: was not protected *)
  | MsgAllDeprotected                       (* deprotect_all_regions *)
  | MsgListCount (n : nat)                  (* show_region_list: header *)
  | MsgProtectedCount (n : nat)             (* show_protected_regions: header *)
  | MsgItem (r : Region.t)                  (* one line per listed region *)
  | MsgHistoryCount (n : nat)               (* show_history: header *)
  | MsgHistoryItem (r : Region.t) (flag : bool)
  | MsgCountdownStart (seconds : nat)       (* region_update: restart in n seconds *)
  | MsgCountdown (seconds : nat)            (* region_update: n seconds left *)
  | MsgPlayerOnly                           (* command needs a player *)
  | MsgNotEnabled                           (* update while config.enabled is false *)
  | MsgReloading.                           (* reload_config *)

(** The lines given to the logger and to the plugin's log file. *)
Inductive LogMsg : Type :=
  | LogUpdate (source : CommandSource) (n : nat)   (* who updated how many regions *)
  | LogDeleted (src_file : string)
  | LogCopy (src_file dest_file : string)
  | LogOutcome (r : Region.t) (error : option exn) (* success, or failure with its message *)
  | LogLoadFailed (file_path : string) (e : exn)
  | LogNoLogFile.                                  (* the log file cannot be written *)

Inductive Event : Type :=
  | Reply (source : CommandSource) (m : Msg)
  | Broadcast (source : CommandSource) (m : Msg)
  | LoggerInfo (l : LogMsg)
  | LoggerError (l : LogMsg)
  | Sleep (seconds : nat)
  | ServerStop
  | ServerWaitForStart
  | ServerStart.

#[global] Instance Q_eq_dec : EqDecision Q.
Proof. solve_decision. Defined.
#[global] Instance CommandSource_eq_dec : EqDecision CommandSource.
Proof. solve_decision. Defined.
#[global] Instance Msg_eq_dec : EqDecision Msg.
Proof. solve_decision. Defined.
#[global] Instance LogMsg_eq_dec : EqDecision LogMsg.
Proof. solve_decision. Defined.
#[global] Instance Event_eq_dec : EqDecision Event.
Proof. solve_decision. Defined.

(** ** The state *)

(** The module globals ([config], [regionList], [protectedRegionList],
    [historyList]) together with the surroundings the plugin acts on: the
    file system, the plugin's own log file ([None] when it cannot be opened
    for appending; time stamps are not modelled) and the sequence of
    replies, logger lines, pauses and server calls made so far.

    [config] is [None] in the source until [load_config] has run, which
    [on_load] does before any command is registered; the worlds of this
    model always hold a configuration. *)
Record World (FS : Type) : Type := mkWorld {
  config : Config;
  regionList : list Region.t;
  protectedRegionList : list Region.t;
  historyList : list (Region.t * bool);
  disk : FS;
  logfile : option (list LogMsg);
  trace : list Event
}.

Arguments mkWorld {FS}.
Arguments config {FS}.
Arguments regionList {FS}.
Arguments protectedRegionList {FS}.
Arguments historyList {FS}.
Arguments disk {FS}.
Arguments logfile {FS}.
Arguments trace {FS}.

Section Setters.
Context {FS : Type}.
Implicit Type w : World FS.

Definition set_config (c : Config) w : World FS :=
  mkWorld c (regionList w) (protectedRegionList w) (historyList w)
          (disk w) (logfile w) (trace w).
Definition set_regionList (l : list Region.t) w : World FS :=
  mkWorld (config w) l (protectedRegionList w) (historyList w)
          (disk w) (logfile w) (trace w).
Definition set_protectedRegionList (l : list Region.t) w : World FS :=
  mkWorld (config w) (regionList w) l (historyList w)
          (disk w) (logfile w) (trace w).
Definition set_historyList (l : list (Region.t * bool)) w : World FS :=
  mkWorld (config w) (regionList w) (protectedRegionList w) l
          (disk w) (logfile w) (trace w).
Definition set_disk (d : FS) w : World FS :=
  mkWorld (config w) (regionList w) (protectedRegionList w) (historyList w)
          d (logfile w) (trace w).
Definition set_logfile (a : option (list LogMsg)) w : World FS :=
  mkWorld (config w) (regionList w) (protectedRegionList w) (historyList w)
          (disk w) a (trace w).
Definition set_trace (t : list Event) w : World FS :=
  mkWorld (config w) (regionList w) (protectedRegionList w) (historyList w)
          (disk w) (logfile w) t.

End Setters.

(** ** A monad for state and exceptions *)

(** A statement either completes with a value or raises; in both cases the
    changes it made to the globals and to the surroundings stay.
    [Unmodelled] is the outcome of a statement that went on with a value
    the state below has no place for (a protected region whose fields are
    not integers): what the code does from there on is not described, and
    the state that comes with this outcome is the one reached just before
    that value was stored. *)
Inductive result (A : Type) : Type :=
  | Returns (a : A)
  | Raises (e : exn)
  | Unmodelled.
Arguments Returns {A}.
Arguments Raises {A}.
Arguments Unmodelled {A}.

Definition M (FS A : Type) : Type := World FS → result A * World FS.

Section Monad.
Context {FS : Type}.

Definition ret {A} (a : A) : M FS A := fun w => (Returns a, w).

Definition bind {A B} (c : M FS A) (k : A → M FS B) : M FS B :=
  fun w =>
    match c w with
    | (Returns a, w') => k a w'
    | (Raises e, w') => (Raises e, w')
    | (Unmodelled, w') => (Unmodelled, w')
    end.

Definition raise {A} (e : exn) : M FS A := fun w => (Raises e, w).

Definition unmodelled {A} : M FS A := fun w => (Unmodelled, w).

Definition gets {A} (f : World FS → A) : M FS A := fun w => (Returns (f w), w).

Definition modify (f : World FS → World FS) : M FS unit :=
  fun w => (Returns tt, f w).

(** [try: c] with [except Exception as e] and [else]: the outcome of [c]
    as a value; nothing escapes. *)
Definition try_ {A} (c : M FS A) : M FS (exn + A) :=
  fun w =>
    match c w with
    | (Returns a, w') => (Returns (inr a), w')
    | (Raises e, w') => (Returns (inl e), w')
    | (Unmodelled, w') => (Unmodelled, w')
    end.

(** Turning the answer of a call into a statement. *)
Definition lift_result {A} (r : exn + A) : M FS A :=
  match r with
  | inr a => ret a
  | inl e => raise e
  end.

(** The same for a call that changes the file system: what it did to the
    file system stays, whether it raised or not. *)
Definition fs_effect (r : FS * option exn) : M FS unit :=
  fun w =>
    (match snd r with
     | Some e => Raises e
     | None => Returns tt
     end,
     set_disk (fst r) w).

End Monad.

#[local] Notation "'let*' x := c 'in' k" := (bind c (fun x => k))
  (at level 10, x name, c at level 100, k at level 200).
#[local] Notation "c ;; k" := (bind c (fun _ => k))
  (at level 100, k at level 200, right associativity).

Section Monad_loops.
Context {FS : Type}.

(** [for a in l: body(a)]; an exception leaves the loop. *)
Fixpoint for_each {A} (l : list A) (body : A → M FS unit) : M FS unit :=
  match l with
  | [] => ret tt
  | a :: rest => body a ;; for_each rest body
  end.

End Monad_loops.

(** ** The plugin *)

(** [region in l]: some element of [l] is equal to [region] by [__eq__]. *)
Definition contains (region : Region.t) (l : list Region.t) : bool :=
  existsb (Region.eqb region) l.

(** [l.remove(region)]: drops the first element equal to [region];
    [None] stands for the [ValueError] of a list without one. *)
Fixpoint list_remove (region : Region.t) (l : list Region.t)
  : option (list Region.t) :=
  match l with
  | [] => None
  | r :: rest =>
      if Region.eqb r region then Some rest
      else match list_remove region rest with
           | Some rest' => Some (r :: rest')
           | None => None
           end
  end.

(** The module as it stands right after import: empty lists.  [c] stands
    in for the [None] of [config], which [on_load] overwrites before
    anything reads it. *)
Definition module_globals {FS} (c : Config) (d : FS)
    (a : option (list LogMsg)) (t : list Event) : World FS :=
  mkWorld c [] [] [] d a t.

(** The attributes [on_load] reads from the previous plugin instance;
    [None] is an attribute that is missing (also: no previous instance). *)
Record OldModule : Type := mkOld {
  old_historyList : option (list (Region.t * bool));
  old_regionList : option (list Region.t)
}.

Section Plugin.
Context {FS : Type} `{!FileSystem FS}.
#[local] Abbreviation M := (M FS).

Definition emit (e : Event) : M unit :=
  modify (fun w => set_trace (trace w ++ [e]) w).

Definition reply (source : CommandSource) (m : Msg) : M unit :=
  emit (Reply source m).

(** [print_log]: the line goes to the logger and is appended to the log
    file; a failure to write is reported to the logger and goes no
    further. *)
Definition print_log (msg : LogMsg) : M unit :=
  emit (LoggerInfo msg) ;;
  let* a := gets logfile in
  match a with
  | Some lines => modify (set_logfile (Some (lines ++ [msg])))
  | None => emit (LoggerError LogNoLogFile)
  end.

Definition remove_from_regionList (region : Region.t) : M unit :=
  let* l := gets regionList in
  match list_remove region l with
  | Some l' => modify (set_regionList l')
  | None => raise ValueError
  end.

Definition remove_from_protectedRegionList (region : Region.t) : M unit :=
  let* l := gets protectedRegionList in
  match list_remove region l with
  | Some l' => modify (set_protectedRegionList l')
  | None => raise ValueError
  end.

Definition add_region (source : CommandSource) (region : Region.t) : M unit :=
  let* l := gets regionList in
  if contains region l then reply source MsgAlreadyListed
  else
    let* p := gets protectedRegionList in
    if negb (contains region p) then
      modify (fun w => set_regionList (regionList w ++ [region]) w) ;;
      reply source (MsgAdded region)
    else ret tt.

Definition delete_region (source : CommandSource) (region : Region.t) : M unit :=
  let* l := gets regionList in
  if negb (contains region l) then reply source MsgNotListed
  else
    remove_from_regionList region ;;
    reply source (MsgDeleted region).

Definition clean_region_list (source : CommandSource) : M unit :=
  modify (set_regionList []) ;;
  reply source MsgListCleared.

Definition protected_file_path (c : Config) : string :=
  path_join (destination_world_directory c) (protected_region_file_name c).

Definition save_protected_region_file : M unit :=
  let* c := gets config in
  let file_path := protected_file_path c in
  let* p := gets protectedRegionList in
  let* d := gets disk in
  fs_effect (fs_write d file_path (JsonText (serialize p))).

Definition protect_region (source : CommandSource) (region : Region.t) : M unit :=
  let* p := gets protectedRegionList in
  if contains region p then reply source MsgAlreadyProtected
  else
    modify (fun w => set_protectedRegionList (protectedRegionList w ++ [region]) w) ;;
    let* l := gets regionList in
    (if contains region l then
       remove_from_regionList region ;;
       reply source (MsgUnlistedAndProtected region)
     else reply source (MsgProtected region)) ;;
    save_protected_region_file.

Definition deprotect_region (source : CommandSource) (region : Region.t) : M unit :=
  let* p := gets protectedRegionList in
  if contains region p then
    remove_from_protectedRegionList region ;;
    reply source (MsgDeprotected region) ;;
    save_protected_region_file
  else reply source MsgNotProtected.

Definition deprotect_all_regions (source : CommandSource) : M unit :=
  modify (set_protectedRegionList []) ;;
  reply source MsgAllDeprotected ;;
  save_protected_region_file.

(** [load_protected_region_file].  [open] sits outside the [try], so its
    error escapes; a text that [json.load] rejects is handled by the
    [except] branch; otherwise the [else] branch extends the list. *)
Definition load_protected_region_file : M unit :=
  let* c := gets config in
  let file_path := protected_file_path c in
  let* d := gets disk in
  if fs_isfile d file_path then
    let* text := lift_result (fs_read d file_path) in
    match text with
    | NotJson _ =>
        emit (LoggerError (LogLoadFailed file_path JSONDecodeError)) ;;
        modify (set_protectedRegionList []) ;;
        save_protected_region_file
    | JsonText protected_list_data =>
        let* items := lift_result (json_iter protected_list_data) in
        let* p := gets protectedRegionList in
        let (p', ending) := extend_regions p items in
        modify (set_protectedRegionList p') ;;
        match ending with
        | Extended => ret tt
        | Stopped e => raise e
        | NotIntegers => unmodelled
        end
    end
  else ret tt.

(** The four commands that take the region from where the player stands. *)
Definition from_player (action : CommandSource → Region.t → M unit)
    (source : CommandSource) : M unit :=
  match get_region_from_source source with
  | Some region => action source region
  | None => reply source MsgPlayerOnly
  end.

Definition add_region_from_player := from_player add_region.
Definition delete_region_from_player := from_player delete_region.
Definition protect_region_from_player := from_player protect_region.
Definition deprotect_region_from_player := from_player deprotect_region.

Definition show_region_list (source : CommandSource) : M unit :=
  let* l := gets regionList in
  reply source (MsgListCount (length l)) ;;
  for_each l (fun region => reply source (MsgItem region)).

Definition show_history (source : CommandSource) : M unit :=
  let* h := gets historyList in
  reply source (MsgHistoryCount (length h)) ;;
  for_each h (fun '(region, flag) => reply source (MsgHistoryItem region flag)).

Definition show_protected_regions (source : CommandSource) : M unit :=
  let* p := gets protectedRegionList in
  reply source (MsgProtectedCount (length p)) ;;
  for_each p (fun region => reply source (MsgItem region)).

(** The body of the inner loop of [region_update]: one file of one
    region. *)
Definition transfer_file (region : Region.t) (region_file : string) : M unit :=
  let* c := gets config in
  let src_file := path_join (source_world_directory c) region_file in
  let dest_file := path_join (destination_world_directory c) region_file in
  let* outcome :=
    try_ (let* d := gets disk in
          if negb (fs_isfile d src_file) && fs_isfile d dest_file then
            fs_effect (fs_remove d dest_file) ;;
            emit (LoggerInfo (LogDeleted src_file))
          else
            emit (LoggerInfo (LogCopy src_file dest_file)) ;;
            fs_effect (fs_copyfile d src_file dest_file)) in
  let (msg, flag) :=
    match outcome with
    | inl e => (LogOutcome region (Some e), false)
    | inr _ => (LogOutcome region None, true)
    end in
  modify (fun w => set_historyList (historyList w ++ [(region, flag)]) w) ;;
  print_log msg.

(** [region.to_file_list()] on the current configuration. *)
Definition to_file_list (region : Region.t) : M (list string) :=
  let* c := gets config in
  lift_result (Region.to_file_list (dimension_region_folder c) region).

Definition region_update (source : CommandSource) : M unit :=
  show_region_list source ;;
  let countdown := 5%nat in
  emit (Broadcast source (MsgCountdownStart countdown)) ;;
  for_each (seq 1 (countdown - 1)) (fun i =>
    emit (Broadcast source (MsgCountdown (countdown - i))) ;;
    emit (Sleep 1)) ;;
  emit ServerStop ;;
  emit ServerWaitForStart ;;
  let* l := gets regionList in
  print_log (LogUpdate source (length l)) ;;
  modify (set_historyList []) ;;
  for_each l (fun region =>
    let* file_list := to_file_list region in
    for_each file_list (transfer_file region)) ;;
  modify (set_regionList []) ;;
  emit (Sleep 1) ;;
  emit ServerStart.

(** [load_config]: [loaded] is what [load_config_simple] hands back. *)
Definition load_config (loaded : Config) : M unit :=
  modify (set_config loaded).

Definition reload_config (source : CommandSource) (loaded : Config) : M unit :=
  reply source MsgReloading ;;
  load_config loaded.

(** [on_load], run on the globals of the freshly imported module.  The two
    assignments from [old] sit in one [try]: a missing [historyList] skips
    both, a missing [regionList] only the second.  Registering the
    commands and the help message is left to the dispatcher. *)
Definition on_load (old : OldModule) (loaded : Config) : M unit :=
  match old_historyList old with
  | Some h =>
      modify (set_historyList h) ;;
      match old_regionList old with
      | Some l => modify (set_regionList l)
      | None => ret tt
      end
  | None => ret tt
  end ;;
  load_config loaded ;;
  load_protected_region_file.

End Plugin.

(** ** Commands *)

(** What the dispatcher can ask of the plugin.  A region argument of [None]
    is the form of the command without coordinates, which takes the region
    from the player's position.  [Reload] carries the configuration
    [load_config_simple] reads at that moment.  [deprotect_all_regions] is
    listed in the help text but bound to no literal by
    [register_commands]; it is kept as a command here.  The threads of
    [new_thread] are run to completion one after the other.

    The commands act on the globals of one import of the module: every
    region in its lists is an instance of the class [Region] of that
    import, so that the [isinstance] test of [__eq__] holds whenever two
    regions are compared and [Region.eqb] is all of [__eq__].  What a
    reload of the plugin does to this is the matter of the next
    section. *)
Inductive Command : Type :=
  | Add (source : CommandSource) (region : option Region.t)
  | Del (source : CommandSource) (region : option Region.t)
  | DelAll (source : CommandSource)
  | Protect (source : CommandSource) (region : option Region.t)
  | Deprotect (source : CommandSource) (region : option Region.t)
  | DeprotectAll (source : CommandSource)
  | ListRegions (source : CommandSource)
  | ListProtect (source : CommandSource)
  | History (source : CommandSource)
  | Update (source : CommandSource)
  | Reload (source : CommandSource) (loaded : Config).

Section Commands.
Context {FS : Type} `{!FileSystem FS}.

Definition run_command (cmd : Command) : M FS unit :=
  match cmd with
  | Add source (Some region) => add_region source region
  | Add source None => add_region_from_player source
  | Del source (Some region) => delete_region source region
  | Del source None => delete_region_from_player source
  | DelAll source => clean_region_list source
  | Protect source (Some region) => protect_region source region
  | Protect source None => protect_region_from_player source
  | Deprotect source (Some region) => deprotect_region source region
  | Deprotect source None => deprotect_region_from_player source
  | DeprotectAll source => deprotect_all_regions source
  | ListRegions source => show_region_list source
  | ListProtect source => show_protected_regions source
  | History source => show_history source
  | Update source =>
      let* c := gets config in
      if enabled c then region_update source else reply source MsgNotEnabled
  | Reload source loaded => reload_config source loaded
  end.

(** The world a command leaves behind, whether it completed or raised. *)
Definition step (w : World FS) (cmd : Command) : World FS := snd (run_command cmd w).

Definition run (cmds : list Command) (w : World FS) : World FS :=
  fold_left step cmds w.

(** The first load of the plugin: no previous instance. *)
Definition startup (loaded : Config) (d : FS) (a : option (list LogMsg)) : World FS :=
  snd (on_load (mkOld None None) loaded (module_globals loaded d a [])).

End Commands.

(** ** Reloading the plugin *)

(** MCDR reloads a plugin by importing its module anew and calling
    [on_load] of the new module with the old one.  The class [Region] of
    the new module is another class than the [Region] of the old module,
    and neither is a subclass of the other; the regions [on_load] takes
    over with [old.regionList] stay instances of the class of the import
    that built them. *)

(** A [Region] object: the import of the module whose class it is an
    instance of, and its fields. *)
Record Instance : Type := mkInstance {
  import : nat;
  fields : Region.t
}.

(** [__eq__] with its [isinstance] test. *)
Definition instance_eqb (self other : Instance) : bool :=
  if negb (Nat.eqb (import other) (import self)) then false
  else Region.eqb (fields self) (fields other).

(** [region in l] and [l.remove(region)] on such objects, as [contains]
    and [list_remove] above. *)
Definition instance_contains (region : Instance) (l : list Instance) : bool :=
  existsb (instance_eqb region) l.

Fixpoint instance_remove (region : Instance) (l : list Instance)
  : option (list Instance) :=
  match l with
  | [] => None
  | r :: rest =>
      if instance_eqb r region then Some rest
      else match instance_remove region rest with
           | Some rest' => Some (r :: rest')
           | None => None
           end
  end.

(** The plugin over its reloads.  Regions are appended at the end of
    [regionList], and no region built by the running module is equal to
    one that an earlier import built: the list holds first the regions
    handed over ([inherited], by their fields), then the regions of the
    running module's own class, and [in] and [remove] with a region of the
    running module look at the second part only (lemma
    [inherited_never_equal] below).  [current] holds the globals of the
    running module, its field [regionList] being that second part.  The
    protected regions are not handed over: [on_load] fills the new
    module's own list from the file. *)
Record Reloaded (FS : Type) : Type := mkReloaded {
  inherited : list Region.t;
  current : World FS
}.

Arguments mkReloaded {FS}.
Arguments inherited {FS}.
Arguments current {FS}.

Section Reloading.
Context {FS : Type} `{!FileSystem FS}.

(** The list [regionList] of the running module. *)
Definition pending (s : Reloaded FS) : list Region.t :=
  inherited s ++ regionList (current s).

(** The plugin after its first load: nothing is inherited. *)
Definition first_import (w : World FS) : Reloaded FS := mkReloaded [] w.

(** The running module as [on_load] of the next import sees it: its two
    lists are handed over. *)
Definition as_old (s : Reloaded FS) : OldModule :=
  mkOld (Some (historyList (current s))) (Some (pending s)).

(** A plugin reload imports the module anew and runs its [on_load] on the
    old module; the file system, the log file and what was said so far
    stay.  [on_load] makes [old.regionList] the list of the new module:
    all of it is inherited, and none of it is of the new module's
    class. *)
Definition plugin_reload (loaded : Config) (s : Reloaded FS)
  : result unit * Reloaded FS :=
  let w := current s in
  let started :=
    on_load (as_old s) loaded (module_globals loaded (disk w) (logfile w) (trace w)) in
  (fst started,
   mkReloaded (regionList (snd started)) (set_regionList [] (snd started))).

(** A statement of the running module that reaches [regionList] only
    through [in], [append] and [remove] with a region it built itself, as
    [add_region], [delete_region], [protect_region] and [deprotect_region]
    do: it acts on the regions of the running module and leaves the
    inherited ones where they are. *)
Definition on_current {A} (c : M FS A) (s : Reloaded FS) : result A * Reloaded FS :=
  (fst (c (current s)), mkReloaded (inherited s) (snd (c (current s)))).

End Reloading.

(** * The vocabulary of the properties *)

(** ** Lists of regions *)

(** The number of elements equal to [region]. *)
Definition occurrences (region : Region.t) (l : list Region.t) : nat :=
  length (filter (fun r => r = region) l).

(** ** How a statement moves the state *)

(** [evolves R c]: whatever [c] does, and whether it completes or raises,
    the world it leaves is related by [R] to the one it started in. *)
Definition evolves {FS B} (R : relation (World FS)) (c : M FS B) : Prop :=
  ∀ w, R w (snd (c w)).

(** The relation of two worlds with the same value of [f]. *)
Definition same {FS A} (f : World FS → A) : relation (World FS) :=
  fun w w' => f w' = f w.

#[global] Instance same_preorder {FS A} (f : World FS → A) : PreOrder (same f).
Proof.
  split.
  - intros w. reflexivity.
  - intros w1 w2 w3 H12 H23. unfold same in *. congruence.
Qed.

(** The list of waiting regions is as it was, or empty. *)
Definition same_or_cleared {FS} : relation (World FS) :=
  fun w w' => regionList w' = regionList w ∨ regionList w' = [].

#[global] Instance same_or_cleared_preorder {FS} : PreOrder (@same_or_cleared FS).
Proof.
  split.
  - intros w. left. reflexivity.
  - intros w1 w2 w3 [H12|H12] [H23|H23]; unfold same_or_cleared;
      rewrite ?H23, ?H12; auto.
Qed.

(** ** The two lists under the commands *)

(** How one command can move the list of waiting regions [l] and the list
    of protected regions [p]. *)
Inductive lists_step (l p : list Region.t) : list Region.t → list Region.t → Prop :=
  | ls_same : lists_step l p l p
  | ls_add r : r ∉ l → r ∉ p → lists_step l p (l ++ [r]) p
  | ls_del r l' : list_remove r l = Some l' → lists_step l p l' p
  | ls_clear : lists_step l p [] p
  | ls_protect r : r ∉ l → lists_step l p l (p ++ [r])
  | ls_protect_del r l' : list_remove r l = Some l' → lists_step l p l' (p ++ [r])
  | ls_deprotect r p' : list_remove r p = Some p' → lists_step l p l p'
  | ls_deprotect_all : lists_step l p l [].

Definition moves {FS} : relation (World FS) := fun w w' =>
  lists_step (regionList w) (protectedRegionList w)
             (regionList w') (protectedRegionList w').

(** ** Loading the protected regions *)

(** The regions a load into an empty list takes from the file at [path]:
    those of its entries that come before the first one that is not an
    object with integers for x, z and dim.  On a file written by
    [save_protected_region_file] these are the regions that were saved
    (lemma [stored_regions_saved]). *)
Definition stored_regions {FS} `{!FileSystem FS} (d : FS) (path : string)
  : list Region.t :=
  if fs_isfile d path then
    match fs_read d path with
    | inr (JsonText data) =>
        match json_iter data with
        | inr items => fst (extend_regions [] items)
        | inl _ => []
        end
    | _ => []
    end
  else [].

Section Handing_over.
Context {FS : Type}.
Implicit Type w : World FS.

(** The globals [on_load] hands to [load_protected_region_file]. *)
Definition handed_over (old : OldModule) (loaded : Config) w : World FS :=
  match old_historyList old, old_regionList old with
  | Some h, Some l => set_config loaded (set_regionList l (set_historyList h w))
  | Some h, None => set_config loaded (set_historyList h w)
  | None, _ => set_config loaded w
  end.

End Handing_over.

(** ** The update *)

(** The two calls that change whether the server runs. *)
Definition is_server_call (e : Event) : bool :=
  match e with
  | ServerStop | ServerStart => true
  | _ => false
  end.

Definition server_calls (t : list Event) : list Event :=
  List.filter is_server_call t.

(** The dimension of [r] has an entry in the folder mapping of [c]. *)
Definition mapped (c : Config) (r : Region.t) : Prop :=
  is_Some (dimension_region_folder c !! pretty (Region.dim r)).

(** The files of a region whose dimension is mapped. *)
Definition files_of (c : Config) (r : Region.t) : list string :=
  match Region.to_file_list (dimension_region_folder c) r with
  | inr file_list => file_list
  | inl _ => []
  end.

(** The files an update goes through, each with its region: region by
    region in the order of the list, file by file in the order of the
    mapping. *)
Definition jobs (c : Config) (l : list Region.t) : list (Region.t * string) :=
  flat_map (fun r => map (pair r) (files_of c r)) l.

Definition succeeded (o : option exn) : bool :=
  match o with
  | None => true
  | Some _ => false
  end.

Section Transfer_spec.
Context {FS : Type} `{!FileSystem FS}.

(** What handling one file does to the file system, and the exception it
    met, if any: a destination whose source is gone is removed, anything
    else is copied; the file system is the one the call leaves, also when
    it failed. *)
Definition transfer_outcome (c : Config) (d : FS) (region_file : string)
  : FS * option exn :=
  let src_file := path_join (source_world_directory c) region_file in
  let dest_file := path_join (destination_world_directory c) region_file in
  if negb (fs_isfile d src_file) && fs_isfile d dest_file then
    fs_remove d dest_file
  else
    fs_copyfile d src_file dest_file.

(** The ledger a sequence of files leaves, and the file system after it:
    one pair per file, flagged by whether that file went through. *)
Fixpoint ledger (c : Config) (d : FS) (js : list (Region.t * string))
  : list (Region.t * bool) * FS :=
  match js with
  | [] => ([], d)
  | (r, region_file) :: rest =>
      let o := transfer_outcome c d region_file in
      let after := ledger c (fst o) rest in
      ((r, succeeded (snd o)) :: fst after, snd after)
  end.

(** [w'] is [w] after the files [js] were handled. *)
Definition transferred (js : list (Region.t * string)) (w w' : World FS) : Prop :=
  config w' = config w
  ∧ regionList w' = regionList w
  ∧ protectedRegionList w' = protectedRegionList w
  ∧ historyList w' = historyList w ++ fst (ledger (config w) (disk w) js)
  ∧ disk w' = snd (ledger (config w) (disk w) js)
  ∧ server_calls (trace w') = server_calls (trace w).

(** The loop over the waiting regions, as in the body of [region_update]. *)
Definition transfer_regions (l : list Region.t) : M FS unit :=
  for_each l (fun region =>
    bind (to_file_list region) (fun file_list =>
      for_each file_list (transfer_file region))).

End Transfer_spec.

(** A statement that completes and touches nothing but the log file and
    the part of the trace that is not a server call. *)
Definition quiet {FS} `{!FileSystem FS} {A} (c : M FS A) : Prop :=
  ∀ w, ∃ a w1, c w = (Returns a, w1) ∧ transferred [] w w1.

(** ** Worlds used as examples *)

Definition console : CommandSource := ConsoleCommandSource.

(** An empty in-memory file system, and the plugin freshly started on it
    with the default configuration. *)
Definition empty_disk : MemFS := mkMemFS ∅ ∅.

Definition fresh_world : World MemFS := startup default_config empty_disk (Some []).

Definition origin : Region.t := Region.mk 0 0 0.


Definition far : Region.t := Region.mk 7 (-2) 1.

(** One region waiting, another one protected and saved. *)
Definition synced_world : World MemFS :=
  run [Add console (Some origin); Protect console (Some far)] fresh_world.


(** The origin region has its points-of-interest file in both trees and
    its terrain file in neither; the region is waiting under the default
    configuration. *)
Definition poi_only_disk : MemFS :=
  mkMemFS (<[ "./qb_multi/slot1/world/poi/r.0.0.mca" := NotJson "new poi data" ]>
          (<[ "./server/world/poi/r.0.0.mca" := NotJson "old poi data" ]> ∅)) ∅.

Definition poi_only_world : World MemFS :=
  run [Add console (Some origin)] (startup default_config poi_only_disk (Some [])).

(** A configuration that maps the Overworld only, and an End region
    waiting. *)
Definition overworld_only_config : Config :=
  mkConfig true "protected-regions.json" "./qb_multi/slot1/world" "./server/world"
           {[ "0" := FolderList ["region"; "poi"] ]}.

Definition end_region : Region.t := Region.mk 0 0 1.

Definition end_waiting_world : World MemFS :=
  run [Add console (Some end_region)] (startup overworld_only_config empty_disk (Some [])).

(** One folder per dimension, and three regions waiting: A was removed
    from the source, B is in both trees, C is in the source but its
    destination cannot be written. *)
Definition single_folder_config : Config :=
  mkConfig true "protected-regions.json" "src" "dst" {[ "0" := FolderStr "region" ]}.

Definition region_A : Region.t := Region.mk 0 0 0.
Definition region_B : Region.t := Region.mk 1 0 0.
Definition region_C : Region.t := Region.mk 2 0 0.

Definition abc_disk : MemFS :=
  mkMemFS (<[ "dst/region/r.0.0.mca" := NotJson "old A" ]>
          (<[ "src/region/r.1.0.mca" := NotJson "new B" ]>
          (<[ "dst/region/r.1.0.mca" := NotJson "old B" ]>
          (<[ "src/region/r.2.0.mca" := NotJson "new C" ]> ∅))))
          {[ "dst/region/r.2.0.mca" ]}.

Definition abc_world : World MemFS :=
  run [Add console (Some region_A); Add console (Some region_B);
       Add console (Some region_C)]
      (startup single_folder_config abc_disk (Some [])).

(** A protected-regions file that holds the JSON array [[1]]: it parses,
    but its entry is not a region. *)
Definition wrong_shape_disk : MemFS :=
  mkMemFS {[ "./server/world/protected-regions.json" := JsonText (JArr [JInt 1]) ]} ∅.

Definition wrong_shape_world : World MemFS :=
  module_globals default_config wrong_shape_disk (Some []) [].

(** A protected-regions file that is not JSON. *)
Definition corrupt_disk : MemFS :=
  mkMemFS {[ "./server/world/protected-regions.json" := NotJson "[{x: 1," ]} ∅.

Definition corrupt_world : World MemFS :=
  module_globals default_config corrupt_disk (Some []) [].

(** The same file where it cannot be written. *)
Definition corrupt_locked_disk : MemFS :=
  mkMemFS {[ "./server/world/protected-regions.json" := NotJson "[{x: 1," ]}
          {[ "./server/world/protected-regions.json" ]}.

Definition corrupt_locked_world : World MemFS :=
  module_globals default_config corrupt_locked_disk (Some []) [].

(** The plugin with the origin region protected. *)
Definition protected_origin_world : World MemFS :=
  run [Protect console (Some origin)] fresh_world.

(** The plugin with two regions protected and saved, one after the
    other. *)
Definition two_protected_world : World MemFS :=
  run [Protect console (Some far); Protect console (Some end_region)] fresh_world.

(** The origin region is queued, the plugin is reloaded, and the region is
    queued again. *)
Definition queued_once : Reloaded MemFS :=
  snd (on_current (add_region console origin) (first_import fresh_world)).

Definition queued_and_reloaded : Reloaded MemFS :=
  snd (plugin_reload default_config queued_once).

Definition queued_again : Reloaded MemFS :=
  snd (on_current (add_region console origin) queued_and_reloaded).

(** ** Further vocabulary *)

(** A string without a full stop. *)
Fixpoint dotless (s : string) : Prop :=
  match s with
  | EmptyString => True
  | String c rest => c ≠ "."%char ∧ dotless rest
  end.

(** One step of the list of protected regions under a command. *)
Inductive protected_step (p : list Region.t) : list Region.t → Prop :=
  | ps_same : protected_step p p
  | ps_add r : r ∉ p → protected_step p (p ++ [r])
  | ps_remove r p' : list_remove r p = Some p' → protected_step p p'
  | ps_clear : protected_step p [].

Section Persisted.
Context {FS : Type} `{!FileSystem FS}.

(** The protected-regions file the configuration points at stores exactly
    the protected regions held in memory. *)
Definition in_step (w : World FS) : Prop :=
  stored_regions (disk w) (protected_file_path (config w)) = protectedRegionList w.

(** The commands of the set manager: everything but the update and the
    reload of the configuration. *)
Definition set_manager_command (cmd : Command) : Prop :=
  match cmd with
  | Add _ _ | Del _ _ | DelAll _ | Protect _ _ | Deprotect _ _ | DeprotectAll _
  | ListRegions _ | ListProtect _ | History _ => True
  | Update _ | Reload _ _ => False
  end.

(** What decides whether the file is in step. *)
Definition persisted (w : World FS) : FS * Config * list Region.t :=
  (disk w, config w, protectedRegionList w).

End Persisted.

(** The fresh plugin with the origin region waiting. *)
Definition origin_waiting_world : World MemFS :=
  run [Add console (Some origin)] fresh_world.

(** A protected-regions file whose second entry is the number 1. *)
Definition partly_bad_disk : MemFS :=
  mkMemFS {[ "./server/world/protected-regions.json" :=
               JsonText (JArr (map serialize_region [far]
                               ++ JInt 1 :: [serialize_region origin])) ]} ∅.

Definition partly_bad_world : World MemFS :=
  module_globals default_config partly_bad_disk (Some []) [].

(** * Properties *)

(** ** Facts about the monad and about equality of regions *)

Lemma Region_eqb_eq (a b : Region.t) : Region.eqb a b = true ↔ a = b.
Proof.
  unfold Region.eqb. rewrite !andb_true_iff, !Z.eqb_eq.
  destruct a, b; simpl. split.
  - intros [[-> ->] ->]. reflexivity.
  - intros [= -> -> ->]. auto.
Qed.

Section Monad_facts.
Context {FS : Type}.

Lemma bind_returns {A B} (c : M FS A) (k : A → M FS B) w a w1 :
  c w = (Returns a, w1) → bind c k w = k a w1.
Proof. intros H. unfold bind. rewrite H. reflexivity. Qed.

Lemma bind_raises {A B} (c : M FS A) (k : A → M FS B) w e w1 :
  c w = (Raises e, w1) → bind c k w = (Raises e, w1).
Proof. intros H. unfold bind. rewrite H. reflexivity. Qed.

Lemma returns_eq {A} (x : result A * World FS) a : fst x = Returns a → x = (Returns a, snd x).
Proof. destruct x as [r w]. cbn. intros ->. reflexivity. Qed.

End Monad_facts.

(** ** Region identity *)

(** C7. [to_file_list] fails exactly when the mapping has no entry for the
    region's dimension id, and then with a [KeyError] for that id;
    otherwise it returns one path per mapped folder, in the mapping's
    order, a lone folder name counting as a list of one. *)
Theorem to_file_list_spec (mapping : gmap string Folders) (self : Region.t) :
  (mapping !! pretty (Region.dim self) = None
     ↔ ∃ e, Region.to_file_list mapping self = inl e)
  ∧ (∀ e, Region.to_file_list mapping self = inl e
          → e = KeyError (pretty (Region.dim self)))
  ∧ (∀ folders, mapping !! pretty (Region.dim self) = Some folders
          → Region.to_file_list mapping self
            = inr (map (fun folder => path_join folder (Region.to_file_name self))
                       (Region.folder_names folders))).
Proof.
  unfold Region.to_file_list.
  destruct (mapping !! pretty (Region.dim self)) as [[folder|l]|] eqn:E.
  - split; [|split].
    + split; [discriminate | intros [e He]; discriminate].
    + discriminate.
    + intros folders [= <-]. reflexivity.
  - split; [|split].
    + split; [discriminate | intros [e He]; discriminate].
    + discriminate.
    + intros folders [= <-]. reflexivity.
  - split; [|split].
    + split; eauto.
    + intros e [= <-]. reflexivity.
    + discriminate.
Qed.

(** With the default configuration the Nether region (-3, 1) expands to
    its terrain file and its points-of-interest file; an End region has no
    files in a mapping that only lists the Overworld. *)
Example to_file_list_default :
  Region.to_file_list (dimension_region_folder default_config) (Region.mk (-3) 1 (-1))
  = inr ["DIM-1/region/r.-3.1.mca"; "DIM-1/poi/r.-3.1.mca"].
Proof. reflexivity. Qed.

Example to_file_list_unmapped :
  Region.to_file_list (<["0" := FolderStr "region"]> ∅) (Region.mk 0 0 1)
  = inl (KeyError "1").
Proof. reflexivity. Qed.

(** Truncation and floor agree on the coordinates that are not negative. *)
Lemma int_of_float_nonneg (v : Q) : (0 <= v)%Q → int_of_float v = Qfloor v.
Proof.
  destruct v as [n d]. unfold Qle, int_of_float, Qfloor. simpl. intros Hn.
  apply Z.quot_div_nonneg; lia.
Qed.

(** They also agree on whole numbers. *)
Lemma int_of_float_whole (n : Z) : int_of_float (inject_Z n) = Qfloor (inject_Z n).
Proof.
  unfold int_of_float, Qfloor, inject_Z. simpl.
  rewrite Z.quot_1_r, Z.div_1_r. reflexivity.
Qed.

(** Flooring a quotient by 512 is flooring, then dividing. *)
Lemma Qfloor_div_512 (v : Q) : Qfloor (v / 512) = Qfloor v / 512.
Proof.
  destruct v as [n d]. unfold Qdiv, Qmult, Qinv, Qfloor. simpl.
  rewrite Z.mul_1_r, Pos2Z.inj_mul, Z.div_div by lia. reflexivity.
Qed.

(** Where the player stands at a coordinate that is not negative, or on a
    whole number, the region index is the floor of the coordinate divided
    by 512. *)
Lemma region_index_floor (v : Q) :
  (0 <= v)%Q ∨ (∃ n, v = inject_Z n) →
  int_of_float v / 512 = Qfloor (v / 512).
Proof.
  intros [H | [n ->]]; rewrite Qfloor_div_512.
  - rewrite int_of_float_nonneg by assumption. reflexivity.
  - rewrite int_of_float_whole. reflexivity.
Qed.

(** C8 at x = -0.5, z = -0.5: [int] rounds the coordinate to 0 before the
    floor division, so the player is put in region (0, 0), while the floor
    of -0.5 / 512 is -1 on both axes. *)
Theorem region_of_player_just_west_of_origin :
  get_region_from_source (PlayerCommandSource (-1 # 2) 64 (-1 # 2) 0)
    = Some (Region.mk 0 0 0)
  ∧ Qfloor ((-1 # 2) / 512) = -1.
Proof. split; reflexivity. Qed.

(** ** Lists of regions *)

Lemma Region_eqb_neq (a b : Region.t) : Region.eqb a b = false ↔ a ≠ b.
Proof.
  rewrite <- Region_eqb_eq. destruct (Region.eqb a b); split; congruence.
Qed.

Lemma contains_true (region : Region.t) (l : list Region.t) :
  contains region l = true ↔ region ∈ l.
Proof.
  unfold contains. induction l as [|r l IH]; simpl.
  - split; [discriminate | intros H; inversion H].
  - rewrite orb_true_iff, IH, Region_eqb_eq, elem_of_cons. reflexivity.
Qed.

Lemma contains_false (region : Region.t) (l : list Region.t) :
  contains region l = false ↔ region ∉ l.
Proof.
  rewrite <- contains_true. destruct (contains region l); split; congruence.
Qed.

Lemma list_remove_None (region : Region.t) (l : list Region.t) :
  list_remove region l = None ↔ region ∉ l.
Proof.
  induction l as [|r l IH]; cbn [list_remove].
  - split; [intros _ H; inversion H | reflexivity].
  - rewrite not_elem_of_cons. destruct (Region.eqb r region) eqn:E.
    + apply Region_eqb_eq in E. split; [discriminate | intros [? _]; congruence].
    + apply Region_eqb_neq in E.
      destruct (list_remove region l); split.
      * discriminate.
      * intros [_ H']. apply IH in H'. discriminate.
      * intros _. split; [congruence | apply IH; reflexivity].
      * reflexivity.
Qed.

(** What is left after [remove] was in the list before. *)
Lemma list_remove_subset (region : Region.t) (l l' : list Region.t) :
  list_remove region l = Some l' → ∀ r, r ∈ l' → r ∈ l.
Proof.
  revert l'. induction l as [|a l IH]; cbn [list_remove]; intros l' H r Hr;
    [discriminate|].
  destruct (Region.eqb a region).
  - injection H as <-. apply elem_of_cons. auto.
  - destruct (list_remove region l) as [rest|]; [|discriminate].
    injection H as <-. apply elem_of_cons in Hr as [->|Hr].
    + apply elem_of_cons. auto.
    + apply elem_of_cons. right. eapply IH; eauto.
Qed.

(** [remove] on a list without repetition removes the region for good. *)
Lemma list_remove_NoDup (region : Region.t) (l l' : list Region.t) :
  NoDup l → list_remove region l = Some l' → NoDup l' ∧ region ∉ l'.
Proof.
  revert l'. induction l as [|a l IH]; cbn [list_remove]; intros l' Hnd H;
    [discriminate|].
  apply NoDup_cons in Hnd as [Ha Hnd].
  destruct (Region.eqb a region) eqn:E.
  - injection H as <-. apply Region_eqb_eq in E. subst. auto.
  - destruct (list_remove region l) as [rest|] eqn:R; [|discriminate].
    injection H as <-. destruct (IH rest Hnd eq_refl) as [Hnd' Hnot].
    apply Region_eqb_neq in E.
    split.
    + apply NoDup_cons. split; [|assumption].
      intros Hin. apply Ha. eapply list_remove_subset; eauto.
    + apply not_elem_of_cons. split; [congruence | assumption].
Qed.

Lemma occurrences_app (region : Region.t) (l1 l2 : list Region.t) :
  occurrences region (l1 ++ l2)
  = (occurrences region l1 + occurrences region l2)%nat.
Proof. unfold occurrences. rewrite filter_app, length_app. reflexivity. Qed.

Lemma occurrences_absent (region : Region.t) (l : list Region.t) :
  region ∉ l → occurrences region l = 0%nat.
Proof.
  unfold occurrences. induction l as [|a l IH]; [reflexivity|].
  rewrite not_elem_of_cons. intros [Hne Hl].
  rewrite filter_cons_False by congruence. auto.
Qed.

Lemma occurrences_NoDup (region : Region.t) (l : list Region.t) :
  NoDup l → region ∈ l → occurrences region l = 1%nat.
Proof.
  unfold occurrences. induction l as [|a l IH]; intros Hnd Hin; [inversion Hin|].
  apply NoDup_cons in Hnd as [Ha Hnd].
  apply elem_of_cons in Hin as [->|Hin].
  - rewrite filter_cons_True by reflexivity. simpl.
    f_equal. apply (occurrences_absent a l Ha).
  - rewrite filter_cons_False; [auto|]. intros ->. contradiction.
Qed.

(** ** How a statement moves the state *)

Section Evolves.
Context {FS : Type} (R : relation (World FS)) `{!PreOrder R}.

Lemma evolves_ret {B} (b : B) : evolves R (ret b).
Proof. intros w. reflexivity. Qed.

Lemma evolves_raise {B} (e : exn) : evolves R (raise (A:=B) e).
Proof. intros w. reflexivity. Qed.

Lemma evolves_unmodelled {B} : evolves R (unmodelled (A:=B)).
Proof. intros w. reflexivity. Qed.

Lemma evolves_gets {B} (g : World FS → B) : evolves R (gets g).
Proof. intros w. reflexivity. Qed.

Lemma evolves_lift_result {B} (r : exn + B) : evolves R (lift_result r).
Proof. intros w. destruct r; reflexivity. Qed.

Lemma evolves_modify (g : World FS → World FS) :
  (∀ w, R w (g w)) → evolves R (modify g).
Proof. intros H w. apply H. Qed.

Lemma evolves_fs_effect (r : FS * option exn) :
  (∀ w, R w (set_disk (fst r) w)) → evolves R (fs_effect r).
Proof. intros H w. apply H. Qed.

Lemma evolves_bind {B C} (c : M FS B) (k : B → M FS C) :
  evolves R c → (∀ b, evolves R (k b)) → evolves R (bind c k).
Proof.
  intros Hc Hk w. unfold bind. specialize (Hc w).
  destruct (c w) as [[b|e|] w']; simpl in *.
  - etransitivity; [exact Hc | apply Hk].
  - assumption.
  - assumption.
Qed.

Lemma evolves_try {B} (c : M FS B) : evolves R c → evolves R (try_ c).
Proof.
  intros Hc w. unfold try_. specialize (Hc w).
  destruct (c w) as [[b|e|] w']; assumption.
Qed.

Lemma evolves_for_each {B} (l : list B) (body : B → M FS unit) :
  (∀ b, evolves R (body b)) → evolves R (for_each l body).
Proof.
  intros Hb. induction l as [|b l IH]; simpl.
  - apply evolves_ret.
  - apply evolves_bind; auto.
Qed.

End Evolves.

(** Breaks a statement into its parts and closes the [modify] steps that
    visibly respect the relation. *)
Ltac frame :=
  repeat first
    [ apply evolves_ret; tc_solve | apply evolves_raise; tc_solve
    | apply evolves_unmodelled; tc_solve
    | apply evolves_gets; tc_solve
    | apply evolves_lift_result; tc_solve
    | apply evolves_modify; intros; solve [hnf; auto]
    | apply evolves_fs_effect; intros; solve [hnf; auto]
    | apply evolves_try
    | apply evolves_for_each; [tc_solve | intros]
    | apply evolves_bind; [tc_solve | | intros]
    | match goal with
      | |- evolves _ (match ?x with _ => _ end) => destruct x
      | |- evolves _ (if ?b then _ else _) => destruct b
      | |- evolves _ (let (_, _) := ?p in _) => destruct p
      end ].

Section Frames.
Context {FS : Type} `{!FileSystem FS}.

Lemma emit_same {A} (f : World FS → A) e :
  (∀ t w, f (set_trace t w) = f w) → evolves (same f) (emit e).
Proof. intros H. unfold emit. apply evolves_modify. intros w. apply H. Qed.

Lemma save_protected : evolves (same protectedRegionList) save_protected_region_file.
Proof. unfold save_protected_region_file. frame. Qed.
Lemma show_region_list_same {A} (f : World FS → A) source :
  (∀ t w, f (set_trace t w) = f w) → evolves (same f) (show_region_list source).
Proof.
  intros H. unfold show_region_list, reply.
  apply evolves_bind; [tc_solve | apply evolves_gets; tc_solve | intros l].
  apply evolves_bind; [tc_solve | apply emit_same; auto | intros _].
  apply evolves_for_each; [tc_solve | intros r]. apply emit_same; auto.
Qed.

(** An update leaves the protected regions and the configuration alone,
    and the waiting regions as they were or none at all. *)
Lemma region_update_protected source :
  evolves (same protectedRegionList) (region_update source).
Proof.
  unfold region_update, show_region_list, to_file_list, reply, print_log, emit.
  frame.
Qed.

Lemma region_update_regionList source :
  evolves same_or_cleared (region_update source).
Proof.
  unfold region_update, show_region_list, to_file_list, reply, print_log, emit.
  frame.
Qed.

End Frames.

(** ** The two lists under the commands *)

Lemma lists_step_NoDup l p l' p' : lists_step l p l' p' → NoDup l → NoDup l'.
Proof.
  intros H Hnd. destruct H; auto.
  - apply NoDup_app. split; [assumption|]. split.
    + intros x Hx Hx'. apply list_elem_of_singleton in Hx'. congruence.
    + apply NoDup_singleton.
  - eapply list_remove_NoDup; eauto.
  - apply NoDup_nil_2.
  - eapply list_remove_NoDup; eauto.
Qed.


(** Runs the straight-line part of a command on a world given by its
    fields, splitting on the tests the command makes. *)
Ltac exec :=
  repeat (cbv beta iota zeta delta
            [add_region delete_region clean_region_list protect_region
             deprotect_region deprotect_all_regions save_protected_region_file
             remove_from_regionList remove_from_protectedRegionList
             reload_config load_config from_player
             add_region_from_player delete_region_from_player
             protect_region_from_player deprotect_region_from_player
             bind gets modify ret raise lift_result fs_effect reply emit
             fst snd negb
             config regionList protectedRegionList historyList disk logfile trace
             set_trace set_regionList set_protectedRegionList set_disk
             set_config set_historyList set_logfile];
          try match goal with
              | |- context [contains ?r ?l] => destruct (contains r l) eqn:?
              | |- context [list_remove ?r ?l] => destruct (list_remove r l) eqn:?
              | |- context [fs_write ?d ?p ?c] => destruct (fs_write d p c) eqn:?
              | |- context [get_region_from_source ?s] =>
                  destruct (get_region_from_source s) eqn:?
              end).

(** Closes the goals whose tests contradict each other. *)
Ltac absurd_tests :=
  match goal with
  | H1 : contains ?r ?l = true, H2 : list_remove ?r ?l = None |- _ =>
      apply contains_true in H1; apply list_remove_None in H2; contradiction
  end.

Section Moves.
Context {FS : Type} `{!FileSystem FS}.
Implicit Type w : World FS.

Lemma add_region_moves source region w :
  moves w (snd (add_region source region w)).
Proof.
  unfold moves. destruct w. exec; try apply ls_same.
  apply ls_add; apply contains_false; assumption.
Qed.

Lemma delete_region_moves source region w :
  moves w (snd (delete_region source region w)).
Proof.
  unfold moves. destruct w. exec; try apply ls_same; try absurd_tests.
  eapply ls_del; eassumption.
Qed.

Lemma protect_region_moves source region w :
  moves w (snd (protect_region source region w)).
Proof.
  unfold moves. destruct w. exec; try apply ls_same; try absurd_tests;
    first [ eapply ls_protect_del; eassumption
          | apply ls_protect; apply contains_false; assumption ].
Qed.

Lemma deprotect_region_moves source region w :
  moves w (snd (deprotect_region source region w)).
Proof.
  unfold moves. destruct w. exec; try apply ls_same; try absurd_tests;
    eapply ls_deprotect; eassumption.
Qed.

Lemma from_player_moves action source w :
  (∀ region w, moves w (snd (action source region w))) →
  moves w (snd (from_player action source w)).
Proof.
  intros H. unfold from_player.
  destruct (get_region_from_source source); [apply H|].
  apply ls_same.
Qed.

Lemma same_lists_moves {B} (c : M FS B) w :
  evolves (same regionList) c → evolves (same protectedRegionList) c →
  moves w (snd (c w)).
Proof.
  intros Hl Hp. unfold moves. rewrite (Hl w), (Hp w). apply ls_same.
Qed.

(** Every command moves the two lists by one of the steps above. *)
Lemma run_command_moves cmd w : moves w (step w cmd).
Proof.
  unfold step.
  destruct cmd as [s [r|] | s [r|] | s | s [r|] | s [r|] | s | s | s | s | s
                  | s c]; cbn [run_command].
  - apply add_region_moves.
  - apply from_player_moves, add_region_moves.
  - apply delete_region_moves.
  - apply from_player_moves, delete_region_moves.
  - unfold moves. destruct w. exec. apply ls_clear.
  - apply protect_region_moves.
  - apply from_player_moves, protect_region_moves.
  - apply deprotect_region_moves.
  - apply from_player_moves, deprotect_region_moves.
  - unfold moves. destruct w. exec; apply ls_deprotect_all.
  - apply same_lists_moves; apply show_region_list_same; reflexivity.
  - apply same_lists_moves; unfold show_protected_regions, reply, emit; frame.
  - apply same_lists_moves; unfold show_history, reply, emit; frame.
  - unfold moves, bind, gets. cbn [fst snd]. destruct (enabled (config w)).
    + rewrite (region_update_protected s w).
      destruct (region_update_regionList s w) as [-> | ->];
        [apply ls_same | apply ls_clear].
    + destruct w. exec. apply ls_same.
  - unfold moves. destruct w. exec. apply ls_same.
Qed.

End Moves.

(** ** Loading the protected regions *)

Lemma region_of_entry_serialize (r : Region.t) :
  region_of_entry (serialize_region r) = inr (Some r).
Proof. destruct r. reflexivity. Qed.

(** Extending a list is extending the empty list and putting the result
    behind. *)
Lemma extend_regions_acc (acc : list Region.t) (items : list json) :
  extend_regions acc items
  = (acc ++ fst (extend_regions [] items), snd (extend_regions [] items)).
Proof.
  revert acc. induction items as [|r rest IH]; intros acc; cbn [extend_regions].
  - rewrite app_nil_r. reflexivity.
  - destruct (region_of_entry r) as [e|[region|]].
    + rewrite app_nil_r. reflexivity.
    + rewrite (IH (acc ++ [region])), (IH ([] ++ [region])).
      cbn [fst snd]. rewrite <- app_assoc. reflexivity.
    + rewrite app_nil_r. reflexivity.
Qed.

Lemma extend_regions_serialize (acc l : list Region.t) :
  extend_regions acc (map serialize_region l) = (acc ++ l, Extended).
Proof.
  revert acc. induction l as [|r l IH]; intros acc; cbn [map extend_regions].
  - rewrite app_nil_r. reflexivity.
  - rewrite region_of_entry_serialize, IH, <- app_assoc. reflexivity.
Qed.

Section Loading.
Context {FS : Type} `{!FileSystem FS}.
Implicit Type w : World FS.

Lemma on_load_unfold old loaded w :
  on_load old loaded w = load_protected_region_file (handed_over old loaded w).
Proof.
  unfold on_load, handed_over.
  destruct (old_historyList old), (old_regionList old); reflexivity.
Qed.

Lemma load_regionList : evolves (same regionList) load_protected_region_file.
Proof. unfold load_protected_region_file, save_protected_region_file, emit. frame. Qed.

(** [load_protected_region_file] case by case. *)
Lemma load_unfold w :
  load_protected_region_file w =
  let file_path := protected_file_path (config w) in
  if fs_isfile (disk w) file_path then
    match fs_read (disk w) file_path with
    | inl e => (Raises e, w)
    | inr (NotJson _) =>
        save_protected_region_file
          (set_protectedRegionList []
             (set_trace
                (trace w ++ [LoggerError (LogLoadFailed file_path JSONDecodeError)])
                w))
    | inr (JsonText data) =>
        match json_iter data with
        | inl e => (Raises e, w)
        | inr items =>
            (match snd (extend_regions (protectedRegionList w) items) with
             | Extended => Returns tt
             | Stopped e => Raises e
             | NotIntegers => Unmodelled
             end,
             set_protectedRegionList
               (fst (extend_regions (protectedRegionList w) items)) w)
        end
    end
  else (Returns tt, w).
Proof.
  unfold load_protected_region_file, bind, gets. cbn zeta.
  destruct (fs_isfile (disk w) (protected_file_path (config w))); [|reflexivity].
  destruct (fs_read (disk w) (protected_file_path (config w))) as [e|[data|junk]];
    cbn [lift_result raise ret]; try reflexivity.
  destruct (json_iter data) as [e|items]; cbn [lift_result raise ret];
    [reflexivity|].
  destruct (extend_regions (protectedRegionList w) items) as [p' [|e|]];
    reflexivity.
Qed.

(** A file that holds the array of the x/z/dim objects of [entries] is
    loaded in full and in order, behind what the list holds already. *)
Lemma load_serialized w entries :
  fs_isfile (disk w) (protected_file_path (config w)) = true →
  fs_read (disk w) (protected_file_path (config w))
  = inr (JsonText (serialize entries)) →
  load_protected_region_file w
  = (Returns tt, set_protectedRegionList (protectedRegionList w ++ entries) w).
Proof.
  intros Hfile Hread. rewrite load_unfold. cbn zeta.
  rewrite Hfile, Hread. unfold serialize. cbn [json_iter].
  rewrite extend_regions_serialize. reflexivity.
Qed.

Lemma load_missing w :
  fs_isfile (disk w) (protected_file_path (config w)) = false →
  load_protected_region_file w = (Returns tt, w).
Proof. intros Hfile. rewrite load_unfold. cbn zeta. rewrite Hfile. reflexivity. Qed.

End Loading.

(** ** Regions across imports of the module *)

(** A region of the running import [n] is equal to no region of another
    import: in a list that holds regions of other imports first and
    regions of import [n] behind them, [in] and [remove] with a region of
    import [n] find what they find among the latter, and [remove] leaves
    the former where they are. *)
Lemma inherited_never_equal (n : nat) (foreign : list Instance)
    (own : list Region.t) (r : Region.t) :
  Forall (fun o => import o ≠ n) foreign →
  instance_contains (mkInstance n r) (foreign ++ map (mkInstance n) own)
  = contains r own
  ∧ instance_remove (mkInstance n r) (foreign ++ map (mkInstance n) own)
    = option_map (fun own' => foreign ++ map (mkInstance n) own')
                 (list_remove r own).
Proof.
  intros Hforeign. induction Hforeign as [|o foreign Ho _ [IHc IHr]].
  - cbn [app]. split.
    + unfold instance_contains, contains. induction own as [|a own IH]; [reflexivity|].
      cbn [map existsb]. rewrite IH. unfold instance_eqb. cbn [import fields].
      rewrite Nat.eqb_refl. reflexivity.
    + induction own as [|a own IH]; [reflexivity|].
      cbn [map instance_remove list_remove]. unfold instance_eqb at 1.
      cbn [import fields]. rewrite Nat.eqb_refl. cbn [negb].
      destruct (Region.eqb a r); [reflexivity|].
      rewrite IH. destruct (list_remove r own); reflexivity.
  - assert (E1 : instance_eqb (mkInstance n r) o = false).
    { unfold instance_eqb. cbn [import]. apply Nat.eqb_neq in Ho. rewrite Ho.
      reflexivity. }
    assert (E2 : instance_eqb o (mkInstance n r) = false).
    { unfold instance_eqb. cbn [import].
      assert (Hn : n ≠ import o) by congruence.
      apply Nat.eqb_neq in Hn. rewrite Hn. reflexivity. }
    split.
    + unfold instance_contains in *. cbn [app existsb]. rewrite E1. exact IHc.
    + cbn [app instance_remove]. rewrite E2, IHr.
      destruct (list_remove r own); reflexivity.
Qed.

Section Reloading_facts.
Context {FS : Type} `{!FileSystem FS}.
Implicit Type s : Reloaded FS.



End Reloading_facts.

(** ** The set manager *)

Section Set_manager.
Context {FS : Type} `{!FileSystem FS}.
Implicit Type w : World FS.

Lemma step_NoDup w cmd : NoDup (regionList w) → NoDup (regionList (step w cmd)).
Proof.
  intros Hnd. eapply lists_step_NoDup; [apply run_command_moves | assumption].
Qed.


Lemma startup_regionList loaded (d : FS) a : regionList (startup loaded d a) = [].
Proof.
  unfold startup. rewrite on_load_unfold, (load_regionList _). reflexivity.
Qed.

Lemma run_NoDup cmds w : NoDup (regionList w) → NoDup (regionList (run cmds w)).
Proof.
  unfold run. revert w. induction cmds as [|cmd cmds IH]; intros w Hnd;
    cbn [fold_left]; [assumption|].
  apply IH, step_NoDup, Hnd.
Qed.


Lemma add_region_listed source region w :
  region ∈ regionList w →
  add_region source region w
  = (Returns tt, set_trace (trace w ++ [Reply source MsgAlreadyListed]) w).
Proof.
  intros H%contains_true. unfold add_region, bind, gets. cbn [fst snd].
  rewrite H. reflexivity.
Qed.

Lemma add_region_protected source region w :
  region ∉ regionList w → region ∈ protectedRegionList w →
  add_region source region w = (Returns tt, w).
Proof.
  intros Hl%contains_false Hp%contains_true.
  unfold add_region, bind, gets. cbn [fst snd]. rewrite Hl, Hp. reflexivity.
Qed.

Lemma add_region_new source region w :
  region ∉ regionList w → region ∉ protectedRegionList w →
  add_region source region w
  = (Returns tt,
     set_trace (trace w ++ [Reply source (MsgAdded region)])
       (set_regionList (regionList w ++ [region]) w)).
Proof.
  intros Hl%contains_false Hp%contains_false.
  unfold add_region, bind, gets. cbn [fst snd]. rewrite Hl, Hp. reflexivity.
Qed.

(** C4, amended. [add_region] always completes and never touches the
    protected regions.  A region already waiting is answered with "already
    in the list" and nothing else changes; a region that is protected (and
    not waiting) leaves the waiting regions as they are; any other region
    is appended at the end and answered with "added".  Hence, for a region
    that is not protected, adding it twice to a list without repetition
    leaves it there exactly once, and the second call answers "already in
    the list" and changes nothing else. *)
Theorem add_region_spec source region w :
  fst (add_region source region w) = Returns tt
  ∧ protectedRegionList (snd (add_region source region w)) = protectedRegionList w
  ∧ (region ∈ regionList w →
       snd (add_region source region w)
       = set_trace (trace w ++ [Reply source MsgAlreadyListed]) w)
  ∧ (region ∉ regionList w → region ∈ protectedRegionList w →
       regionList (snd (add_region source region w)) = regionList w)
  ∧ (region ∉ regionList w → region ∉ protectedRegionList w →
       snd (add_region source region w)
       = set_trace (trace w ++ [Reply source (MsgAdded region)])
           (set_regionList (regionList w ++ [region]) w))
  ∧ (region ∉ protectedRegionList w → NoDup (regionList w) →
       let w1 := snd (add_region source region w) in
       let w2 := snd (add_region source region w1) in
       occurrences region (regionList w2) = 1%nat
       ∧ w2 = set_trace (trace w1 ++ [Reply source MsgAlreadyListed]) w1).
Proof.
  assert (Hlast : region ∈ regionList w ++ [region]).
  { apply elem_of_app. right. apply list_elem_of_singleton. reflexivity. }
  destruct (decide (region ∈ regionList w)) as [Hl|Hl];
    [|destruct (decide (region ∈ protectedRegionList w)) as [Hp|Hp]].
  - rewrite (add_region_listed _ _ _ Hl). cbn [fst snd].
    split; [reflexivity|]. split; [reflexivity|]. split; [reflexivity|].
    split; [contradiction|]. split; [contradiction|].
    intros _ Hnd. cbn zeta. rewrite add_region_listed by exact Hl. cbn [snd].
    split; [|reflexivity]. apply occurrences_NoDup; assumption.
  - rewrite (add_region_protected _ _ _ Hl Hp). cbn [fst snd].
    split; [reflexivity|]. split; [reflexivity|]. split; [contradiction|].
    split; [reflexivity|]. split; contradiction.
  - rewrite (add_region_new _ _ _ Hl Hp). cbn [fst snd].
    split; [reflexivity|]. split; [reflexivity|]. split; [contradiction|].
    split; [contradiction|]. split; [reflexivity|].
    intros _ Hnd. cbn zeta. rewrite add_region_listed by exact Hlast.
    cbn [snd]. split; [|reflexivity].
    cbn [regionList set_trace set_regionList].
    rewrite occurrences_app, (occurrences_absent _ _ Hl).
    apply (occurrences_NoDup region [region]).
    + apply NoDup_singleton.
    + apply list_elem_of_singleton. reflexivity.
Qed.

End Set_manager.

(** ** Persistence of the protected regions *)

Section Persistence.
Context {FS : Type} `{!FileSystem FS}.
Implicit Type w : World FS.

(** [save_protected_region_file] case by case. *)
Lemma save_unfold w :
  save_protected_region_file w =
  let saved := fs_write (disk w) (protected_file_path (config w))
                        (JsonText (serialize (protectedRegionList w))) in
  (match snd saved with
   | Some e => Raises e
   | None => Returns tt
   end,
   set_disk (fst saved) w).
Proof. reflexivity. Qed.

(** Loading a file that parses keeps what was in the list. *)
Lemma load_parseable_keeps w data :
  fs_read (disk w) (protected_file_path (config w)) = inr (JsonText data) →
  ∃ regions,
    protectedRegionList (snd (load_protected_region_file w))
    = protectedRegionList w ++ regions.
Proof.
  intros Hread. rewrite load_unfold. cbn zeta.
  destruct (fs_isfile _ _).
  - rewrite Hread. destruct (json_iter data) as [e|items].
    + exists []. rewrite app_nil_r. reflexivity.
    + rewrite extend_regions_acc. eexists. reflexivity.
  - exists []. rewrite app_nil_r. reflexivity.
Qed.

(** C10. A protected-regions file that holds the array of the x/z/dim
    objects of [entries] is loaded behind what the list in memory holds:
    the list after the load is the list before followed by all of
    [entries] in the order of the file, and a second load of the same file
    puts them there a second time.  Whatever a file that parses holds, a
    load that completes or raises has only added to the end of the
    list. *)
Theorem load_extends w :
  (∀ entries,
     fs_isfile (disk w) (protected_file_path (config w)) = true →
     fs_read (disk w) (protected_file_path (config w))
     = inr (JsonText (JArr (map serialize_region entries))) →
     load_protected_region_file w
     = (Returns tt, set_protectedRegionList (protectedRegionList w ++ entries) w)
     ∧ bind load_protected_region_file (fun _ => load_protected_region_file) w
       = (Returns tt,
          set_protectedRegionList (protectedRegionList w ++ entries ++ entries) w))
  ∧ (∀ data,
       fs_read (disk w) (protected_file_path (config w)) = inr (JsonText data) →
       fst (load_protected_region_file w) ≠ Unmodelled →
       ∃ regions,
         protectedRegionList (snd (load_protected_region_file w))
         = protectedRegionList w ++ regions).
Proof.
  split.
  - intros entries Hfile Hread.
    pose proof (load_serialized w entries Hfile Hread) as H1.
    split; [exact H1|].
    unfold bind. rewrite H1.
    rewrite (load_serialized _ entries) by assumption.
    cbn. rewrite <- app_assoc. reflexivity.
  - intros data Hread _. eapply load_parseable_keeps. eassumption.
Qed.

Context `{!FileSystemLaws FS}.

(** After a save that completed, the file stores the protected regions. *)
Lemma stored_regions_saved w w1 :
  save_protected_region_file w = (Returns tt, w1) →
  fs_isfile (disk w1) (protected_file_path (config w)) = true
  ∧ fs_read (disk w1) (protected_file_path (config w))
    = inr (JsonText (serialize (protectedRegionList w)))
  ∧ stored_regions (disk w1) (protected_file_path (config w))
    = protectedRegionList w.
Proof.
  rewrite save_unfold. cbn zeta.
  destruct (fs_write _ _ _) as [d' [e|]] eqn:Hw; cbn [fst snd]; [discriminate|].
  intros [= <-]. cbn [disk set_disk].
  pose proof (fs_write_isfile _ _ _ _ Hw) as Hfile.
  pose proof (fs_write_read _ _ _ _ Hw) as Hread.
  split; [assumption|]. split; [assumption|].
  unfold stored_regions. rewrite Hfile, Hread. cbn [serialize json_iter].
  rewrite extend_regions_serialize. reflexivity.
Qed.

(** C5. Once the protected regions were saved, the file holds them as the
    JSON array of their x/z/dim objects, in order, and a load of the plugin
    with the same configuration (after a restart or a plugin reload, with
    whatever the previous instance hands over) completes with exactly
    those protected regions, in that order. *)
Theorem save_load_roundtrip w w1 :
  save_protected_region_file w = (Returns tt, w1) →
  fs_read (disk w1) (protected_file_path (config w))
  = inr (JsonText (JArr (map serialize_region (protectedRegionList w))))
  ∧ ∀ old placeholder a t,
      let reloaded :=
        on_load old (config w) (module_globals placeholder (disk w1) a t) in
      fst reloaded = Returns tt
      ∧ protectedRegionList (snd reloaded) = protectedRegionList w.
Proof.
  intros Hsave. destruct (stored_regions_saved w w1 Hsave) as (Hfile & Hread & _).
  split; [exact Hread|].
  intros old placeholder a t. cbn zeta. rewrite on_load_unfold.
  unfold handed_over.
  destruct (old_historyList old), (old_regionList old);
    (rewrite (load_serialized _ (protectedRegionList w));
     [split; reflexivity | exact Hfile | exact Hread]).
Qed.

(** C6, amended.  A protected-regions file that is there but does not
    parse is reported to the logger, the list in memory is emptied and the
    file is written anew as an empty JSON array.  When that write goes
    through, the load completes and the file holds the empty array; when
    it raises, the exception leaves the load, with the list in memory
    empty and the file as the failed write left it.  Without a file the
    load completes and changes nothing, so a freshly loaded plugin has no
    protected regions. *)
Theorem load_corrupt_or_missing :
  (∀ w junk,
     fs_isfile (disk w) (protected_file_path (config w)) = true →
     fs_read (disk w) (protected_file_path (config w)) = inr (NotJson junk) →
     let written :=
       fs_write (disk w) (protected_file_path (config w)) (JsonText (JArr [])) in
     let w' := snd (load_protected_region_file w) in
     w' = set_disk (fst written)
            (set_protectedRegionList []
               (set_trace
                  (trace w ++ [LoggerError (LogLoadFailed (protected_file_path (config w))
                                                          JSONDecodeError)])
                  w))
     ∧ (snd written = None →
          fst (load_protected_region_file w) = Returns tt
          ∧ fs_isfile (disk w') (protected_file_path (config w)) = true
          ∧ fs_read (disk w') (protected_file_path (config w)) = inr (JsonText (JArr [])))
     ∧ (∀ e, snd written = Some e →
          fst (load_protected_region_file w) = Raises e))
  ∧ (∀ w,
       fs_isfile (disk w) (protected_file_path (config w)) = false →
       load_protected_region_file w = (Returns tt, w))
  ∧ (∀ old loaded placeholder (d : FS) a t,
       fs_isfile d (protected_file_path loaded) = false →
       let started := on_load old loaded (module_globals placeholder d a t) in
       fst started = Returns tt ∧ protectedRegionList (snd started) = []).
Proof.
  split; [|split].
  - intros w junk Hfile Hread. cbn zeta. rewrite load_unfold. cbn zeta.
    rewrite Hfile, Hread, save_unfold. cbn zeta.
    cbn [fst snd disk config protectedRegionList set_protectedRegionList
         set_trace set_disk].
    change (serialize []) with (JArr []).
    destruct (fs_write (disk w) (protected_file_path (config w)) (JsonText (JArr [])))
      as [d' [e|]] eqn:Hwrite; cbn [fst snd].
    + split; [reflexivity|]. split; [discriminate|]. intros e' [= <-]. reflexivity.
    + split; [reflexivity|]. split; [|discriminate]. intros _.
      split; [reflexivity|]. split.
      * eapply fs_write_isfile; eassumption.
      * eapply fs_write_read; eassumption.
  - apply load_missing.
  - intros old loaded placeholder d a t Hfile. cbn zeta.
    rewrite on_load_unfold, load_unfold. cbn zeta. unfold handed_over.
    destruct (old_historyList old), (old_regionList old);
      cbn [disk config set_config set_regionList set_historyList module_globals];
      rewrite Hfile; split; reflexivity.
Qed.

End Persistence.

(** ** The update *)

Ltac exec_transfer :=
  repeat (cbv beta iota zeta delta
            [transfer_file transfer_outcome try_ print_log succeeded ledger
             bind gets modify ret raise lift_result fs_effect reply emit
             fst snd negb andb
             config regionList protectedRegionList historyList disk logfile trace
             set_trace set_regionList set_protectedRegionList set_disk
             set_config set_historyList set_logfile];
          try match goal with
              | |- context [fs_isfile ?d ?p] => destruct (fs_isfile d p) eqn:?
              | |- context [fs_remove ?d ?p] => destruct (fs_remove d p) eqn:?
              | |- context [fs_copyfile ?d ?p ?q] =>
                  destruct (fs_copyfile d p q) eqn:?
              | |- context [match ?a with Some _ => _ | None => _ end] =>
                  is_var a; destruct a
              end).

Section Update.
Context {FS : Type} `{!FileSystem FS}.
Implicit Type w : World FS.

Lemma server_calls_app t1 t2 :
  server_calls (t1 ++ t2) = server_calls t1 ++ server_calls t2.
Proof. apply List.filter_app. Qed.

Lemma ledger_app c (d : FS) js1 js2 :
  ledger c d (js1 ++ js2)
  = (fst (ledger c d js1) ++ fst (ledger c (snd (ledger c d js1)) js2),
     snd (ledger c (snd (ledger c d js1)) js2)).
Proof.
  revert d. induction js1 as [|[r f] js1 IH]; intros d; cbn [app ledger fst snd].
  - destruct (ledger c d js2); reflexivity.
  - rewrite IH. reflexivity.
Qed.

(** One pair per file, in the order of the files. *)
Lemma ledger_regions c (d : FS) js : map fst (fst (ledger c d js)) = map fst js.
Proof.
  revert d. induction js as [|[r f] js IH]; intros d; cbn [ledger map fst snd].
  - reflexivity.
  - rewrite IH. reflexivity.
Qed.

Lemma transferred_nil w : transferred [] w w.
Proof.
  unfold transferred. cbn [ledger fst snd]. rewrite app_nil_r. auto 10.
Qed.

Lemma transferred_app js1 js2 w w1 w2 :
  transferred js1 w w1 → transferred js2 w1 w2 → transferred (js1 ++ js2) w w2.
Proof.
  intros (Hc1 & Hl1 & Hp1 & Hh1 & Hd1 & Ht1) (Hc2 & Hl2 & Hp2 & Hh2 & Hd2 & Ht2).
  unfold transferred. rewrite ledger_app. cbn [fst snd].
  rewrite Hc2, Hl2, Hp2, Hh2, Hd2, Ht2, Hc1, Hl1, Hp1, Hh1, Hd1, Ht1, app_assoc.
  auto 10.
Qed.

(** Handling one file always completes, whatever the file system does. *)
Lemma transfer_file_run r f w :
  fst (transfer_file r f w) = Returns tt
  ∧ transferred [(r, f)] w (snd (transfer_file r f w)).
Proof.
  unfold transferred. destruct w. exec_transfer;
    unfold server_calls; rewrite ?List.filter_app; cbn [List.filter is_server_call];
    rewrite ?app_nil_r; auto 10.
Qed.

(** The inner loop of [region_update]. *)
Lemma transfer_files_run r file_list w :
  fst (for_each file_list (transfer_file r) w) = Returns tt
  ∧ transferred (map (pair r) file_list) w
      (snd (for_each file_list (transfer_file r) w)).
Proof.
  revert w. induction file_list as [|f rest IH]; intros w; cbn [for_each map].
  - split; [reflexivity | apply transferred_nil].
  - unfold bind. destruct (transfer_file_run r f w) as [Hret Hw].
    destruct (transfer_file r f w) as [res w1]. cbn [fst snd] in *. subst res.
    destruct (IH w1) as [Hret' Hw']. split; [exact Hret'|].
    exact (transferred_app [(r, f)] _ _ _ _ Hw Hw').
Qed.

Lemma to_file_list_mapped r w :
  mapped (config w) r → to_file_list r w = (Returns (files_of (config w) r), w).
Proof.
  intros [folders Hr]. unfold to_file_list, bind, gets, files_of.
  cbn [fst snd]. unfold Region.to_file_list. rewrite Hr.
  destruct folders; reflexivity.
Qed.

Lemma to_file_list_raises r w :
  ¬ mapped (config w) r →
  to_file_list r w = (Raises (KeyError (pretty (Region.dim r))), w).
Proof.
  intros Hr. unfold to_file_list, bind, gets. cbn [fst snd].
  unfold Region.to_file_list, mapped in *.
  destruct (dimension_region_folder (config w) !! pretty (Region.dim r)).
  - exfalso. apply Hr. eexists. reflexivity.
  - reflexivity.
Qed.

(** When every region's dimension is mapped the loop completes. *)
Lemma transfer_regions_run l w :
  Forall (mapped (config w)) l →
  fst (transfer_regions l w) = Returns tt
  ∧ transferred (jobs (config w) l) w (snd (transfer_regions l w)).
Proof.
  unfold transfer_regions. revert w.
  induction l as [|r l IH]; intros w Hmapped; cbn [for_each jobs flat_map].
  - split; [reflexivity | apply transferred_nil].
  - apply Forall_cons in Hmapped as [Hr Hl].
    destruct (transfer_files_run r (files_of (config w) r) w) as [Hret Hw].
    apply returns_eq in Hret.
    rewrite (bind_returns _ _ w tt _
               (eq_trans (bind_returns _ _ w _ w (to_file_list_mapped r w Hr)) Hret)).
    assert (Hc : config (snd (for_each (files_of (config w) r) (transfer_file r) w))
                 = config w) by apply Hw.
    destruct (IH (snd (for_each (files_of (config w) r) (transfer_file r) w)))
      as [Hret' Hw']; [rewrite Hc; exact Hl|].
    split; [exact Hret'|].
    rewrite Hc in Hw'. exact (transferred_app _ _ _ _ _ Hw Hw').
Qed.

End Update.

Section Update_run.
Context {FS : Type} `{!FileSystem FS}.
Implicit Type w : World FS.

Lemma bind_emit {B} e (k : unit → M FS B) w :
  bind (emit e) k w = k tt (set_trace (trace w ++ [e]) w).
Proof. reflexivity. Qed.

Lemma bind_gets {A B} (f : World FS → A) (k : A → M FS B) w :
  bind (gets f) k w = k (f w) w.
Proof. reflexivity. Qed.

Lemma bind_modify {B} (g : World FS → World FS) (k : unit → M FS B) w :
  bind (modify g) k w = k tt (g w).
Proof. reflexivity. Qed.

Lemma quiet_ret {A} (a : A) : quiet (ret a).
Proof. intros w. exists a, w. split; [reflexivity | apply transferred_nil]. Qed.

Lemma quiet_gets {A} (f : World FS → A) : quiet (gets f).
Proof. intros w. exists (f w), w. split; [reflexivity | apply transferred_nil]. Qed.

Lemma quiet_emit e : is_server_call e = false → quiet (emit e).
Proof.
  intros He w. exists tt, (set_trace (trace w ++ [e]) w). split; [reflexivity|].
  unfold transferred. cbn [ledger fst snd]. rewrite app_nil_r.
  cbn [config regionList protectedRegionList historyList disk trace set_trace].
  rewrite server_calls_app. unfold server_calls at 2. cbn [List.filter].
  rewrite He, app_nil_r. auto 10.
Qed.

Lemma quiet_bind {A B} (c : M FS A) (k : A → M FS B) :
  quiet c → (∀ a, quiet (k a)) → quiet (bind c k).
Proof.
  intros Hc Hk w. destruct (Hc w) as (a & w1 & E1 & T1).
  destruct (Hk a w1) as (b & w2 & E2 & T2). exists b, w2.
  split; [rewrite (bind_returns _ _ _ _ _ E1); exact E2|].
  exact (transferred_app [] [] _ _ _ T1 T2).
Qed.

Lemma quiet_for_each {A} (l : list A) (body : A → M FS unit) :
  (∀ a, quiet (body a)) → quiet (for_each l body).
Proof.
  intros Hb. induction l as [|a l IH]; cbn [for_each].
  - apply quiet_ret.
  - apply quiet_bind; auto.
Qed.

Lemma quiet_print_log m : quiet (print_log m).
Proof.
  intros w. unfold print_log. rewrite bind_emit, bind_gets.
  cbn [logfile set_trace]. destruct (logfile w) as [lines|].
  - eexists tt, _. split; [reflexivity|].
    unfold transferred. cbn [ledger fst snd]. rewrite app_nil_r.
    cbn. rewrite server_calls_app. cbn. rewrite app_nil_r. auto 10.
  - eexists tt, _. split; [reflexivity|].
    unfold transferred. cbn [ledger fst snd]. rewrite app_nil_r.
    cbn. rewrite !server_calls_app. cbn. rewrite !app_nil_r. auto 10.
Qed.

Lemma quiet_show_region_list source : quiet (show_region_list source).
Proof.
  unfold show_region_list, reply.
  apply quiet_bind; [apply quiet_gets | intros l].
  apply quiet_bind; [apply quiet_emit; reflexivity | intros _].
  apply quiet_for_each. intros r. apply quiet_emit. reflexivity.
Qed.

(** [region_update] up to the loop over the waiting regions: the loop
    starts on an empty ledger, with the server stopped and everything else
    as it was. *)
Lemma region_update_prefix source w :
  ∃ w0,
    region_update source w
    = bind (transfer_regions (regionList w))
        (fun _ => bind (modify (set_regionList []))
           (fun _ => bind (emit (Sleep 1)) (fun _ => emit ServerStart))) w0
    ∧ config w0 = config w
    ∧ regionList w0 = regionList w
    ∧ protectedRegionList w0 = protectedRegionList w
    ∧ historyList w0 = []
    ∧ disk w0 = disk w
    ∧ server_calls (trace w0) = server_calls (trace w) ++ [ServerStop].
Proof.
  unfold region_update.
  destruct (quiet_show_region_list source w) as (a1 & w1 & E1 & T1).
  rewrite (bind_returns _ _ _ _ _ E1), bind_emit. clear E1.
  match goal with
  | |- ∃ _, bind ?c _ ?w0 = _ ∧ _ =>
      assert (Q : quiet c)
        by (apply quiet_for_each; intros i;
            apply quiet_bind; [|intros _]; apply quiet_emit; reflexivity);
      destruct (Q w0) as (a2 & w2 & E2 & T2)
  end.
  rewrite (bind_returns _ _ _ _ _ E2), !bind_emit, bind_gets. clear E2 Q.
  match goal with
  | |- ∃ _, bind (print_log ?m) _ ?w0 = _ ∧ _ =>
      destruct (quiet_print_log m w0) as (a3 & w3 & E3 & T3)
  end.
  rewrite (bind_returns _ _ _ _ _ E3), bind_modify. clear E3.
  destruct T1 as (Tc1 & Tl1 & Tp1 & Th1 & Td1 & Tt1).
  destruct T2 as (Tc2 & Tl2 & Tp2 & Th2 & Td2 & Tt2).
  destruct T3 as (Tc3 & Tl3 & Tp3 & Th3 & Td3 & Tt3).
  cbn [config regionList protectedRegionList historyList disk trace set_trace
       ledger fst snd] in *.
  assert (Hl : regionList w2 = regionList w) by congruence.
  rewrite Hl. exists (set_historyList [] w3).
  split; [reflexivity|].
  cbn [config regionList protectedRegionList historyList disk trace
       set_historyList].
  repeat split; try congruence.
  rewrite Tt3, !server_calls_app, Tt2, !server_calls_app, Tt1.
  cbn. rewrite !app_nil_r. reflexivity.
Qed.

(** An update completes when every waiting region has a mapped dimension:
    the waiting list is then empty, the ledger is the one of the files gone
    through, and the server was stopped and started once, in this order. *)
Lemma region_update_run source w :
  Forall (mapped (config w)) (regionList w) →
  let js := jobs (config w) (regionList w) in
  fst (region_update source w) = Returns tt
  ∧ regionList (snd (region_update source w)) = []
  ∧ protectedRegionList (snd (region_update source w)) = protectedRegionList w
  ∧ historyList (snd (region_update source w)) = fst (ledger (config w) (disk w) js)
  ∧ disk (snd (region_update source w)) = snd (ledger (config w) (disk w) js)
  ∧ server_calls (trace (snd (region_update source w)))
    = server_calls (trace w) ++ [ServerStop; ServerStart].
Proof.
  intros Hmapped js.
  destruct (region_update_prefix source w) as (w0 & -> & Hc & Hl & Hp & Hh & Hd & Ht).
  destruct (transfer_regions_run (regionList w) w0)
    as [Hret (Tc & Tl & Tp & Th & Td & Tt)]; [rewrite Hc; exact Hmapped|].
  apply returns_eq in Hret.
  rewrite (bind_returns _ _ _ _ _ Hret), bind_modify, bind_emit.
  cbn [fst snd emit modify config regionList protectedRegionList
       historyList disk trace set_trace set_regionList].
  rewrite Tp, Th, Td, Hc, Hd, Hp, Hh. cbn [app].
  repeat split.
  rewrite !server_calls_app, Tt, Ht. cbn. rewrite !app_nil_r, <- app_assoc.
  reflexivity.
Qed.

(** The loop stops at the first region whose dimension is not mapped: the
    [KeyError] of the folder lookup leaves it. *)
Lemma transfer_regions_raises l w :
  Exists (fun r => ¬ mapped (config w) r) l →
  ∃ key w1,
    transfer_regions l w = (Raises (KeyError key), w1)
    ∧ regionList w1 = regionList w
    ∧ server_calls (trace w1) = server_calls (trace w).
Proof.
  unfold transfer_regions. revert w.
  induction l as [|r l IH]; intros w Hex; [inversion Hex|].
  cbn [for_each].
  destruct (decide (mapped (config w) r)) as [Hr|Hr].
  - destruct (transfer_files_run r (files_of (config w) r) w)
      as [Hret (Tc & Tl & Tp & Th & Td & Tt)].
    apply returns_eq in Hret.
    rewrite (bind_returns _ _ w tt _
               (eq_trans (bind_returns _ _ w _ w (to_file_list_mapped r w Hr)) Hret)).
    apply Exists_cons in Hex as [Hex|Hex]; [contradiction|].
    rewrite <- Tc in Hex.
    destruct (IH _ Hex) as (key & w1 & E & Hl & Ht).
    exists key, w1. split; [exact E|]. split; congruence.
  - exists (pretty (Region.dim r)), w. split; [|auto].
    apply bind_raises. apply bind_raises. apply to_file_list_raises. exact Hr.
Qed.

(** X14. An update over a waiting region whose dimension is not mapped
    raises the [KeyError] of the folder lookup after the server was
    stopped: the waiting list is not cleared and the server is not
    started. *)
Lemma region_update_raises source w :
  Exists (fun r => ¬ mapped (config w) r) (regionList w) →
  ∃ key,
    fst (region_update source w) = Raises (KeyError key)
    ∧ regionList (snd (region_update source w)) = regionList w
    ∧ server_calls (trace (snd (region_update source w)))
      = server_calls (trace w) ++ [ServerStop].
Proof.
  intros Hex.
  destruct (region_update_prefix source w) as (w0 & -> & Hc & Hl & Hp & Hh & Hd & Ht).
  rewrite <- Hc in Hex.
  destruct (transfer_regions_raises _ w0 Hex) as (key & w1 & E & Hl1 & Ht1).
  exists key. rewrite (bind_raises _ _ _ _ _ E). cbn [fst snd].
  split; [reflexivity|]. split; congruence.
Qed.

End Update_run.

Section Update_claims.
Context {FS : Type} `{!FileSystem FS}.
Implicit Type w : World FS.

(** C1, amended. When every waiting region has a mapped dimension, the
    update completes and empties the waiting list, and its ledger is built
    file by file: every file of every region, in the order of the list and
    of the mapping, gets its own pair, flagged by whether deleting or
    copying that one file raised; a failure neither skips the files after
    it nor the regions after it.  In particular, with three waiting
    regions of one file each, where the first has no source but a
    destination that is removed, the second is copied and the copy of the
    third raises, the ledger is (A, true), (B, true), (C, false). *)
Theorem update_ledger source w :
  Forall (mapped (config w)) (regionList w) →
  let w' := snd (region_update source w) in
  let js := jobs (config w) (regionList w) in
  let src f := path_join (source_world_directory (config w)) f in
  let dst f := path_join (destination_world_directory (config w)) f in
  fst (region_update source w) = Returns tt
  ∧ regionList w' = []
  ∧ historyList w' = fst (ledger (config w) (disk w) js)
  ∧ map fst (historyList w') = map fst js
  ∧ (∀ A B C fA fB fC d1 d2 d3 e,
       regionList w = [A; B; C] →
       files_of (config w) A = [fA] →
       files_of (config w) B = [fB] →
       files_of (config w) C = [fC] →
       fs_isfile (disk w) (src fA) = false →
       fs_isfile (disk w) (dst fA) = true →
       fs_remove (disk w) (dst fA) = (d1, None) →
       negb (fs_isfile d1 (src fB)) && fs_isfile d1 (dst fB) = false →
       fs_copyfile d1 (src fB) (dst fB) = (d2, None) →
       negb (fs_isfile d2 (src fC)) && fs_isfile d2 (dst fC) = false →
       fs_copyfile d2 (src fC) (dst fC) = (d3, Some e) →
       historyList w' = [(A, true); (B, true); (C, false)]).
Proof.
  intros Hmapped w' js src dst.
  destruct (region_update_run source w Hmapped) as (Hret & Hl & _ & Hh & _).
  fold js in Hh. fold w' in Hl, Hh.
  split; [exact Hret|]. split; [exact Hl|]. split; [exact Hh|].
  split; [rewrite Hh; apply ledger_regions|].
  intros A B C fA fB fC d1 d2 d3 e HABC HA HB HC HsA HdA HrA HbB HcB HbC HcC.
  rewrite Hh. unfold js, jobs. rewrite HABC. cbn [flat_map].
  rewrite HA, HB, HC. cbn [map app].
  assert (OA : transfer_outcome (config w) (disk w) fA = (d1, None)).
  { unfold transfer_outcome. fold (src fA) (dst fA).
    rewrite HsA, HdA. cbn [negb andb]. rewrite HrA. reflexivity. }
  assert (OB : transfer_outcome (config w) d1 fB = (d2, None)).
  { unfold transfer_outcome. fold (src fB) (dst fB).
    rewrite HbB, HcB. reflexivity. }
  assert (OC : transfer_outcome (config w) d2 fC = (d3, Some e)).
  { unfold transfer_outcome. fold (src fC) (dst fC).
    rewrite HbC, HcC. reflexivity. }
  cbn [ledger]. rewrite OA. cbn [fst snd]. rewrite OB. cbn [fst snd].
  rewrite OC. reflexivity.
Qed.

End Update_claims.

(** * The properties on concrete worlds *)

Lemma abc_world_lists :
  config abc_world = single_folder_config
  ∧ regionList abc_world = [region_A; region_B; region_C].
Proof. split; reflexivity. Qed.

(** The scenario of C1 through [update_ledger]. *)
Lemma update_ledger_witness :
  Forall (mapped (config abc_world)) (regionList abc_world)
  ∧ historyList (snd (region_update console abc_world))
    = [(region_A, true); (region_B, true); (region_C, false)].
Proof.
  assert (H : Forall (mapped (config abc_world)) (regionList abc_world)).
  { destruct abc_world_lists as [-> ->].
    repeat apply Forall_cons_2; try apply Forall_nil_2;
      (eexists; vm_compute; reflexivity). }
  split; [exact H|].
  destruct (update_ledger console abc_world H) as (_ & _ & _ & _ & Hscenario).
  apply (Hscenario region_A region_B region_C
           "region/r.0.0.mca" "region/r.1.0.mca" "region/r.2.0.mca"
           (mkMemFS (<[ "src/region/r.1.0.mca" := NotJson "new B" ]>
                    (<[ "dst/region/r.1.0.mca" := NotJson "old B" ]>
                    (<[ "src/region/r.2.0.mca" := NotJson "new C" ]> ∅)))
                    {[ "dst/region/r.2.0.mca" ]})
           (mkMemFS (<[ "src/region/r.1.0.mca" := NotJson "new B" ]>
                    (<[ "dst/region/r.1.0.mca" := NotJson "new B" ]>
                    (<[ "src/region/r.2.0.mca" := NotJson "new C" ]> ∅)))
                    {[ "dst/region/r.2.0.mca" ]})
           (mkMemFS (<[ "src/region/r.1.0.mca" := NotJson "new B" ]>
                    (<[ "dst/region/r.1.0.mca" := NotJson "new B" ]>
                    (<[ "src/region/r.2.0.mca" := NotJson "new C" ]> ∅)))
                    {[ "dst/region/r.2.0.mca" ]})
           (OSError "permission denied"));
    vm_compute; reflexivity.
Defined.

(** C1 as stated fails where a region has two files: the copy of the
    terrain file raises, the points-of-interest file is copied all the
    same, and the ledger holds two pairs for the one region, the second
    one a success. *)
Lemma update_ledger_one_pair_per_file :
  regionList poi_only_world = [origin]
  ∧ files_of (config poi_only_world) origin = ["region/r.0.0.mca"; "poi/r.0.0.mca"]
  ∧ snd (transfer_outcome (config poi_only_world) (disk poi_only_world)
                          "region/r.0.0.mca")
    = Some (OSError "no such file")
  ∧ fst (region_update console poi_only_world) = Returns tt
  ∧ historyList (snd (region_update console poi_only_world))
    = [(origin, false); (origin, true)].
Proof. vm_compute. repeat split; reflexivity. Qed.

(** C2 at a waiting End region under a configuration that maps the
    Overworld only: the update raises the [KeyError] of the folder lookup
    after the server was stopped; the server is not started again and the
    region is still waiting. *)
Theorem update_unmapped_leaves_server_stopped :
  regionList end_waiting_world = [end_region]
  ∧ fst (run_command (Update console) end_waiting_world) = Raises (KeyError "1")
  ∧ server_calls (trace (step end_waiting_world (Update console))) = [ServerStop]
  ∧ regionList (step end_waiting_world (Update console)) = [end_region].
Proof. vm_compute. repeat split; reflexivity. Qed.

(** Where every dimension is mapped, the failure of a copy does not keep
    the server down: in the scenario of three regions the server is
    stopped and started once. *)
Example update_restarts_after_failure :
  fst (run_command (Update console) abc_world) = Returns tt
  ∧ server_calls (trace (step abc_world (Update console)))
    = [ServerStop; ServerStart]
  ∧ regionList (step abc_world (Update console)) = [].
Proof. vm_compute. repeat split; reflexivity. Qed.


Lemma synced_world_lists :
  regionList synced_world = [origin]
  ∧ protectedRegionList synced_world = [far]
  ∧ stored_regions (disk synced_world) (protected_file_path default_config) = [far].
Proof. vm_compute. repeat split; reflexivity. Qed.


(** C4 as stated fails on a protected region: the call sends no reply at
    all, and after two calls the region is not in the waiting list and the
    second call did not answer "already in the list". *)
Lemma add_protected_region_silent :
  let w1 := snd (add_region console origin protected_origin_world) in
  let w2 := snd (add_region console origin w1) in
  origin ∈ protectedRegionList protected_origin_world
  ∧ trace w1 = trace protected_origin_world
  ∧ occurrences origin (regionList w2) = 0%nat
  ∧ trace w2 ≠ trace w1 ++ [Reply console MsgAlreadyListed].
Proof.
  cbn zeta.
  assert (E : protectedRegionList protected_origin_world = [origin]
              ∧ snd (add_region console origin protected_origin_world)
                = protected_origin_world)
    by (vm_compute; split; reflexivity).
  destruct E as (Ep & E1). rewrite !E1, Ep.
  split; [apply list_elem_of_singleton; reflexivity|].
  split; [reflexivity|]. split; [vm_compute; reflexivity|].
  intros H. apply (f_equal length) in H. rewrite length_app in H.
  cbn [length] in H. lia.
Qed.

(** Adding the origin region twice to the fresh plugin, through
    [add_region_spec]. *)
Lemma add_region_spec_witness :
  let w1 := snd (add_region console origin fresh_world) in
  let w2 := snd (add_region console origin w1) in
  occurrences origin (regionList w2) = 1%nat
  ∧ w2 = set_trace (trace w1 ++ [Reply console MsgAlreadyListed]) w1.
Proof.
  apply (add_region_spec console origin fresh_world).
  - intros H. vm_compute in H. inversion H.
  - vm_compute. apply NoDup_nil_2.
Defined.

(** Saving the protected regions of [synced_world] and loading the plugin
    again, through [save_load_roundtrip]. *)
Lemma save_load_roundtrip_witness :
  protectedRegionList
    (snd (on_load (as_old (first_import synced_world)) (config synced_world)
            (module_globals default_config
               (disk (snd (save_protected_region_file synced_world))) None [])))
  = protectedRegionList synced_world.
Proof.
  apply (save_load_roundtrip synced_world
           (snd (save_protected_region_file synced_world))).
  vm_compute. reflexivity.
Defined.

(** Loading the corrupt file, through [load_corrupt_or_missing]. *)
Lemma load_corrupt_or_missing_witness :
  protectedRegionList (snd (load_protected_region_file corrupt_world)) = []
  ∧ fst (load_protected_region_file corrupt_world) = Returns tt
  ∧ fs_read (disk (snd (load_protected_region_file corrupt_world)))
            "./server/world/protected-regions.json"
    = inr (JsonText (JArr [])).
Proof.
  destruct (@load_corrupt_or_missing MemFS _ _) as [Hcorrupt _].
  destruct (Hcorrupt corrupt_world "[{x: 1,") as (Hload & Hdone & _);
    [vm_compute; reflexivity..|].
  cbn zeta in Hload, Hdone.
  destruct Hdone as (Hret & _ & Hread); [vm_compute; reflexivity|].
  split; [rewrite Hload; reflexivity|]. split; [exact Hret | exact Hread].
Defined.

(** C6 as stated fails where the corrupt file cannot be written: the load
    raises the error of the write that should have reset the file, so does
    the start of the plugin, and the file is as corrupt as before. *)
Lemma load_corrupt_unwritable :
  fs_isfile (disk corrupt_locked_world) "./server/world/protected-regions.json" = true
  ∧ fs_read (disk corrupt_locked_world) "./server/world/protected-regions.json"
    = inr (NotJson "[{x: 1,")
  ∧ fst (load_protected_region_file corrupt_locked_world)
    = Raises (OSError "permission denied")
  ∧ fst (on_load (mkOld None None) default_config corrupt_locked_world)
    = Raises (OSError "permission denied")
  ∧ fs_read (disk (snd (load_protected_region_file corrupt_locked_world)))
            "./server/world/protected-regions.json"
    = inr (NotJson "[{x: 1,").
Proof. vm_compute. repeat split; reflexivity. Qed.

(** A file that parses but does not hold regions is not treated as
    corrupt: the [TypeError] of the subscript leaves the load, and the file
    stays as it is. *)
Example load_wrong_shape_raises :
  fst (load_protected_region_file wrong_shape_world) = Raises TypeError
  ∧ disk (snd (load_protected_region_file wrong_shape_world)) = wrong_shape_disk.
Proof. vm_compute. split; reflexivity. Qed.

Lemma two_protected_world_lists :
  protectedRegionList two_protected_world = [far; end_region]
  ∧ fs_read (disk two_protected_world) (protected_file_path (config two_protected_world))
    = inr (JsonText (JArr [JObj [("x", JInt 7); ("z", JInt (-2)); ("dim", JInt 1)];
                           JObj [("x", JInt 0); ("z", JInt 0); ("dim", JInt 1)]])).
Proof. vm_compute. split; reflexivity. Qed.

(** Loading the file of [two_protected_world], which holds two regions,
    over the same two regions in memory, through [load_extends]: both are
    there twice, in the order of the file. *)
Lemma load_extends_witness :
  protectedRegionList (snd (load_protected_region_file two_protected_world))
  = [far; end_region; far; end_region]
  ∧ protectedRegionList
      (snd (bind load_protected_region_file (fun _ => load_protected_region_file)
              two_protected_world))
    = [far; end_region; far; end_region; far; end_region].
Proof.
  destruct (load_extends two_protected_world) as [H _].
  destruct (H [far; end_region]) as [H1 H2];
    [vm_compute; reflexivity | exact (proj2 two_protected_world_lists) |].
  rewrite H1, H2. cbn [snd protectedRegionList set_protectedRegionList].
  rewrite (proj1 two_protected_world_lists). split; reflexivity.
Defined.

(** C9 across a plugin reload.  Within one import of the module the list
    of waiting regions, empty at first, never holds a region twice,
    whatever commands are run (add, delete, clear, protect, deprotect,
    update, whether they complete or raise).  A region that was handed
    over by a reload is an instance of the class of an earlier import,
    which [__eq__] finds equal to no region of the running one, so that
    the [in] of [add_region] does not find it: the origin region, queued
    before the reload and again after it, is in the list twice. *)
Theorem pending_repeats_after_reload :
  (∀ (FS : Type) (fsys : FileSystem FS) (w : World FS) (cmds : list Command),
     regionList w = [] → NoDup (regionList (run cmds w)))
  ∧ instance_eqb (mkInstance 1 origin) (mkInstance 0 origin) = false
  ∧ instance_contains (mkInstance 1 origin) [mkInstance 0 origin] = false
  ∧ regionList fresh_world = []
  ∧ pending queued_once = [origin]
  ∧ fst (plugin_reload default_config queued_once) = Returns tt
  ∧ pending queued_and_reloaded = [origin]
  ∧ fst (on_current (add_region console origin) queued_and_reloaded) = Returns tt
  ∧ trace (current queued_again)
    = trace (current queued_and_reloaded) ++ [Reply console (MsgAdded origin)]
  ∧ pending queued_again = [origin; origin].
Proof.
  split.
  - intros FS fsys w cmds Hw. apply run_NoDup. rewrite Hw. apply NoDup_nil_2.
  - vm_compute. repeat split; reflexivity.
Qed.

(** Queueing a region twice and protecting another one on the fresh
    plugin, through [pending_repeats_after_reload]. *)
Lemma pending_repeats_after_reload_witness :
  NoDup (regionList (run [Add console (Some origin); Add console (Some origin);
                          Protect console (Some far)] fresh_world)).
Proof.
  apply (proj1 pending_repeats_after_reload). vm_compute. reflexivity.
Defined.

(** * Further properties of the plugin *)

Lemma pretty_N_char_no_dot n : pretty_N_char n ≠ "."%char.
Proof. unfold pretty_N_char. repeat case_match; discriminate. Qed.

Lemma pretty_N_go_dotless n s : dotless s → dotless (pretty_N_go n s).
Proof.
  revert s. induction (N.lt_wf_0 n) as [n _ IH]; intros s Hs.
  destruct (decide (n = 0)%N) as [->|Hn].
  - rewrite pretty_N_go_0. exact Hs.
  - rewrite pretty_N_go_step by lia. apply IH.
    + apply N.div_lt; lia.
    + split; [apply pretty_N_char_no_dot | exact Hs].
Qed.

Lemma pretty_N_dotless (n : N) : dotless (pretty n).
Proof.
  unfold pretty, pretty_N. case_decide.
  - split; [discriminate | exact I].
  - apply pretty_N_go_dotless. exact I.
Qed.

Lemma pretty_Z_dotless (n : Z) : dotless (pretty n).
Proof.
  destruct n as [|p|p]; unfold pretty, pretty_Z.
  - split; [discriminate | exact I].
  - apply pretty_N_dotless.
  - split; [discriminate | apply pretty_N_dotless].
Qed.

Lemma dotless_split s1 s2 t1 t2 :
  dotless s1 → dotless s2 →
  s1 +:+ String "." t1 = s2 +:+ String "." t2 → s1 = s2 ∧ t1 = t2.
Proof.
  revert s2. induction s1 as [|c s1 IH]; intros [|c2 s2]; cbn; intros H1 H2 E.
  - injection E as ->. auto.
  - injection E as <- _. destruct H2 as [H2 _]. contradiction.
  - injection E as -> _. destruct H1 as [H1 _]. contradiction.
  - injection E as -> E. destruct H1 as [_ H1], H2 as [_ H2].
    destruct (IH s2 H1 H2 E) as [-> ->]. auto.
Qed.

Lemma append_inv_head s t1 t2 : s +:+ t1 = s +:+ t2 → t1 = t2.
Proof. induction s as [|c s IH]; cbn; [auto|]. intros [= E]. auto. Qed.

(** X1. Two regions have the same file name exactly when they have the
    same x and z (the dimension is not part of the name), and in one
    folder the paths of two regions with different coordinates differ. *)
Theorem region_file_names_distinct (a b : Region.t) :
  (Region.to_file_name a = Region.to_file_name b
     ↔ Region.x a = Region.x b ∧ Region.z a = Region.z b)
  ∧ ∀ folder,
      path_join folder (Region.to_file_name a)
      = path_join folder (Region.to_file_name b)
      → Region.x a = Region.x b ∧ Region.z a = Region.z b.
Proof.
  assert (Hname : Region.to_file_name a = Region.to_file_name b
                  → Region.x a = Region.x b ∧ Region.z a = Region.z b).
  { unfold Region.to_file_name. cbn [String.append]. intros [= E].
    apply dotless_split in E as [Ex E]; [|apply pretty_Z_dotless..].
    change (".mca") with (String "." "mca") in E.
    apply dotless_split in E as [Ez _]; [|apply pretty_Z_dotless..].
    split; eapply (inj pretty); eassumption. }
  split.
  - split; [exact Hname|]. unfold Region.to_file_name. intros [-> ->]. reflexivity.
  - intros folder. unfold path_join.
    assert (Hrel : ∀ r, starts_with_sep (Region.to_file_name r) = false) by reflexivity.
    rewrite !Hrel. destruct (bool_decide (folder = "") || ends_with_sep folder);
      intros E; apply append_inv_head in E; [|apply append_inv_head in E]; auto.
Qed.

Lemma list_remove_split region l1 l2 :
  region ∉ l1 → list_remove region (l1 ++ region :: l2) = Some (l1 ++ l2).
Proof.
  induction l1 as [|a l1 IH]; cbn [app list_remove]; intros H.
  - rewrite (proj2 (Region_eqb_eq region region) eq_refl). reflexivity.
  - apply not_elem_of_cons in H as [Hne H].
    assert (Ha : Region.eqb a region = false) by (apply Region_eqb_neq; congruence).
    rewrite Ha.
    rewrite (IH H). reflexivity.
Qed.

Lemma list_remove_Some_split region l l' :
  list_remove region l = Some l' →
  ∃ l1 l2, l = l1 ++ region :: l2 ∧ (region ∉ l1) ∧ l' = l1 ++ l2.
Proof.
  revert l'. induction l as [|a l IH]; cbn [list_remove]; intros l' H; [discriminate|].
  destruct (Region.eqb a region) eqn:E.
  - apply Region_eqb_eq in E as ->. injection H as <-.
    exists [], l. split; [reflexivity|]. split; [apply not_elem_of_nil | reflexivity].
  - apply Region_eqb_neq in E.
    destruct (list_remove region l) as [rest|]; [|discriminate]. injection H as <-.
    destruct (IH rest eq_refl) as (l1 & l2 & -> & Hl1 & ->).
    exists (a :: l1), l2. split; [reflexivity|]. split; [|reflexivity].
    apply not_elem_of_cons. split; [congruence | assumption].
Qed.

Section More_set_manager.
Context {FS : Type} `{!FileSystem FS}.
Implicit Type w : World FS.

Lemma delete_region_unfold source region w :
  delete_region source region w =
  match list_remove region (regionList w) with
  | Some l' => (Returns tt, set_trace (trace w ++ [Reply source (MsgDeleted region)])
                              (set_regionList l' w))
  | None => (Returns tt, set_trace (trace w ++ [Reply source MsgNotListed]) w)
  end.
Proof.
  unfold delete_region, remove_from_regionList, bind, gets. cbn [fst snd].
  destruct (contains region (regionList w)) eqn:Ec; cbn;
    destruct (list_remove region (regionList w)) eqn:Er; cbn; try reflexivity.
  - apply contains_true in Ec. apply list_remove_None in Er. contradiction.
  - apply contains_false in Ec. apply list_remove_None in Ec. congruence.
Qed.

Lemma protect_region_unfold source region w :
  protect_region source region w =
  if contains region (protectedRegionList w) then
    (Returns tt, set_trace (trace w ++ [Reply source MsgAlreadyProtected]) w)
  else
    match list_remove region (regionList w) with
    | Some l' =>
        save_protected_region_file
          (set_trace (trace w ++ [Reply source (MsgUnlistedAndProtected region)])
             (set_regionList l'
                (set_protectedRegionList (protectedRegionList w ++ [region]) w)))
    | None =>
        save_protected_region_file
          (set_trace (trace w ++ [Reply source (MsgProtected region)])
             (set_protectedRegionList (protectedRegionList w ++ [region]) w))
    end.
Proof.
  unfold protect_region, remove_from_regionList, bind, gets. cbn [fst snd].
  destruct (contains region (protectedRegionList w)); [reflexivity|].
  cbn [modify regionList set_protectedRegionList].
  destruct (contains region (regionList w)) eqn:Ec; cbn;
    destruct (list_remove region (regionList w)) eqn:Er; cbn.
  - reflexivity.
  - apply contains_true in Ec. apply list_remove_None in Er. contradiction.
  - apply contains_false in Ec. apply list_remove_None in Ec. congruence.
  - reflexivity.
Qed.

Lemma deprotect_region_unfold source region w :
  deprotect_region source region w =
  match list_remove region (protectedRegionList w) with
  | Some p' =>
      save_protected_region_file
        (set_trace (trace w ++ [Reply source (MsgDeprotected region)])
           (set_protectedRegionList p' w))
  | None => (Returns tt, set_trace (trace w ++ [Reply source MsgNotProtected]) w)
  end.
Proof.
  unfold deprotect_region, remove_from_protectedRegionList, bind, gets. cbn [fst snd].
  destruct (contains region (protectedRegionList w)) eqn:Ec; cbn;
    destruct (list_remove region (protectedRegionList w)) eqn:Er; cbn.
  - reflexivity.
  - apply contains_true in Ec. apply list_remove_None in Er. contradiction.
  - apply contains_false in Ec. apply list_remove_None in Ec. congruence.
  - reflexivity.
Qed.

(** X2. [delete_region] on a region that is not waiting answers "not in
    the list" and changes nothing else; otherwise it removes the first
    occurrence of the region, keeps the others in their order and answers
    "deleted". *)
Theorem delete_region_spec source region w :
  (region ∉ regionList w →
     delete_region source region w
     = (Returns tt, set_trace (trace w ++ [Reply source MsgNotListed]) w))
  ∧ (∀ l1 l2, regionList w = l1 ++ region :: l2 → region ∉ l1 →
       delete_region source region w
       = (Returns tt,
          set_trace (trace w ++ [Reply source (MsgDeleted region)])
            (set_regionList (l1 ++ l2) w))).
Proof.
  rewrite delete_region_unfold. split.
  - intros H%list_remove_None. rewrite H. reflexivity.
  - intros l1 l2 -> H1. rewrite (list_remove_split _ _ _ H1). reflexivity.
Qed.

Lemma save_lists_kept w :
  regionList (snd (save_protected_region_file w)) = regionList w
  ∧ protectedRegionList (snd (save_protected_region_file w)) = protectedRegionList w
  ∧ config (snd (save_protected_region_file w)) = config w
  ∧ trace (snd (save_protected_region_file w)) = trace w
  ∧ historyList (snd (save_protected_region_file w)) = historyList w.
Proof. rewrite save_unfold. destruct (fs_write _ _ _); auto. Qed.

Lemma protect_region_effect source region w :
  let w' := snd (protect_region source region w) in
  region ∈ protectedRegionList w'
  ∧ (region ∈ protectedRegionList w →
       protect_region source region w
       = (Returns tt, set_trace (trace w ++ [Reply source MsgAlreadyProtected]) w))
  ∧ (region ∉ protectedRegionList w →
       protectedRegionList w' = protectedRegionList w ++ [region]
       ∧ (NoDup (regionList w) → region ∉ regionList w')
       ∧ (∀ r, r ≠ region → (r ∈ regionList w' ↔ r ∈ regionList w))).
Proof.
  cbn zeta. rewrite protect_region_unfold.
  destruct (contains region (protectedRegionList w)) eqn:Ep.
  - apply contains_true in Ep. split; [exact Ep|].
    split; [reflexivity | contradiction].
  - apply contains_false in Ep.
    destruct (list_remove region (regionList w)) as [l'|] eqn:Er;
      match goal with
      | |- context [save_protected_region_file ?w0] =>
          destruct (save_lists_kept w0) as (Hl & Hp & _)
      end; rewrite Hl, Hp; cbn [regionList protectedRegionList set_trace
                                 set_regionList set_protectedRegionList].
    + split; [apply elem_of_app; right; apply list_elem_of_singleton; reflexivity|].
      split; [contradiction|]. intros _. split; [reflexivity|].
      destruct (list_remove_Some_split _ _ _ Er) as (l1 & l2 & E & H1 & ->).
      split.
      * intros Hnd. rewrite E in Hnd. apply NoDup_app in Hnd as (_ & Hdis & Hnd2).
        apply NoDup_cons in Hnd2 as [H2 _].
        intros H. apply elem_of_app in H as [H|H]; contradiction.
      * intros r Hr. rewrite E, !elem_of_app, elem_of_cons.
        split; [tauto | intros [H|[H|H]]; [auto | contradiction | auto]].
    + split; [apply elem_of_app; right; apply list_elem_of_singleton; reflexivity|].
      split; [contradiction|]. intros _. split; [reflexivity|].
      split; [intros _; apply list_remove_None; exact Er | reflexivity].
Qed.

Lemma deprotect_region_effect source region w :
  let w' := snd (deprotect_region source region w) in
  (region ∉ protectedRegionList w →
     deprotect_region source region w
     = (Returns tt, set_trace (trace w ++ [Reply source MsgNotProtected]) w))
  ∧ (∀ p1 p2, protectedRegionList w = p1 ++ region :: p2 → region ∉ p1 →
       protectedRegionList w' = p1 ++ p2
       ∧ regionList w' = regionList w
       ∧ trace w' = trace w ++ [Reply source (MsgDeprotected region)]).
Proof.
  cbn zeta. rewrite deprotect_region_unfold. split.
  - intros H%list_remove_None. rewrite H. reflexivity.
  - intros p1 p2 E H1. rewrite E, (list_remove_split _ _ _ H1).
    match goal with
    | |- context [save_protected_region_file ?w0] =>
        destruct (save_lists_kept w0) as (Hl & Hp & _ & Ht & _)
    end. rewrite Hl, Hp, Ht. auto.
Qed.

(** X5. Protecting a region that was not protected and lifting the
    protection again restores the protected regions, but not the waiting
    ones: a region that was waiting is not put back. *)
Theorem protect_then_deprotect source region w :
  region ∉ protectedRegionList w →
  let w1 := snd (protect_region source region w) in
  let w2 := snd (deprotect_region source region w1) in
  protectedRegionList w2 = protectedRegionList w
  ∧ regionList w2 = regionList w1
  ∧ (NoDup (regionList w) → region ∉ regionList w2).
Proof.
  intros Hp w1 w2.
  destruct (protect_region_effect source region w) as (_ & _ & H).
  destruct (H Hp) as (Hp1 & Hl1 & _). fold w1 in Hp1, Hl1.
  destruct (deprotect_region_effect source region w1) as (_ & H2).
  destruct (H2 (protectedRegionList w) [] Hp1 Hp) as (Hp2 & Hl2 & _).
  fold w2 in Hp2, Hl2. rewrite app_nil_r in Hp2.
  split; [exact Hp2|]. split; [exact Hl2|]. rewrite Hl2. exact Hl1.
Qed.

(** X3. After [protect_region] the region is protected, whether or not
    the save that ends it raised.  A region already protected is answered
    with "already protected" and nothing else changes (no save); otherwise
    it is appended to the protected regions, it is no longer waiting, no
    other region enters or leaves the waiting list, the file system is the
    one the write of the new list leaves behind, and the call raises
    exactly what that write raises. *)
Theorem protect_region_protects source region w :
  let w' := snd (protect_region source region w) in
  region ∈ protectedRegionList w'
  ∧ (region ∈ protectedRegionList w →
       protect_region source region w
       = (Returns tt, set_trace (trace w ++ [Reply source MsgAlreadyProtected]) w))
  ∧ (region ∉ protectedRegionList w →
       protectedRegionList w' = protectedRegionList w ++ [region]
       ∧ (NoDup (regionList w) → region ∉ regionList w')
       ∧ (∀ r, r ≠ region → (r ∈ regionList w' ↔ r ∈ regionList w))
       ∧ (let written :=
            fs_write (disk w) (protected_file_path (config w))
                     (JsonText (serialize (protectedRegionList w ++ [region]))) in
          disk w' = fst written
          ∧ fst (protect_region source region w)
            = match snd written with
              | Some e => Raises e
              | None => Returns tt
              end)).
Proof.
  cbn zeta.
  destruct (protect_region_effect source region w) as (Hin & Hold & Hnew).
  split; [exact Hin|]. split; [exact Hold|].
  intros Hp. destruct (Hnew Hp) as (H1 & H2 & H3).
  split; [exact H1|]. split; [exact H2|]. split; [exact H3|].
  rewrite protect_region_unfold.
  apply contains_false in Hp. rewrite Hp.
  destruct (list_remove region (regionList w)); rewrite save_unfold;
    split; reflexivity.
Qed.

(** X4. [deprotect_region] on a region that is not protected answers "not
    protected" and changes nothing else (no save); otherwise it removes the
    first occurrence only, so that a region listed twice stays protected,
    leaves the waiting regions alone and answers "protection lifted"; the
    file system is the one the write of the new list leaves behind, and
    the call raises exactly what that write raises. *)
Theorem deprotect_region_spec source region w :
  let w' := snd (deprotect_region source region w) in
  (region ∉ protectedRegionList w →
     deprotect_region source region w
     = (Returns tt, set_trace (trace w ++ [Reply source MsgNotProtected]) w))
  ∧ (∀ p1 p2, protectedRegionList w = p1 ++ region :: p2 → region ∉ p1 →
       protectedRegionList w' = p1 ++ p2
       ∧ regionList w' = regionList w
       ∧ trace w' = trace w ++ [Reply source (MsgDeprotected region)]
       ∧ (let written :=
            fs_write (disk w) (protected_file_path (config w))
                     (JsonText (serialize (p1 ++ p2))) in
          disk w' = fst written
          ∧ fst (deprotect_region source region w)
            = match snd written with
              | Some e => Raises e
              | None => Returns tt
              end)).
Proof.
  cbn zeta.
  destruct (deprotect_region_effect source region w) as (Hout & Hin).
  split; [exact Hout|].
  intros p1 p2 E H1. destruct (Hin p1 p2 E H1) as (Hp & Hl & Ht).
  split; [exact Hp|]. split; [exact Hl|]. split; [exact Ht|].
  rewrite deprotect_region_unfold, E, (list_remove_split _ _ _ H1).
  rewrite save_unfold. split; reflexivity.
Qed.

Lemma for_each_ext {A} (l : list A) (body body' : A → M FS unit) :
  (∀ a, body a = body' a) → for_each l body = for_each l body'.
Proof.
  intros H. induction l as [|a l IH]; cbn [for_each]; [reflexivity|].
  rewrite H, IH. reflexivity.
Qed.

Lemma for_each_reply {A} source (g : A → Msg) (l : list A) w :
  for_each l (fun a => reply source (g a)) w
  = (Returns tt, set_trace (trace w ++ map (fun a => Reply source (g a)) l) w).
Proof.
  revert w. induction l as [|a l IH]; intros w; cbn [for_each map].
  - rewrite app_nil_r. destruct w. reflexivity.
  - unfold reply at 1. rewrite bind_emit, IH.
    cbn [trace set_trace]. rewrite <- app_assoc. reflexivity.
Qed.

(** X6. The three listings complete, change nothing but what is said, and
    say the number of entries followed by one line per entry in the order
    of the list. *)
Theorem listings_read_only source w :
  show_region_list source w
  = (Returns tt,
     set_trace (trace w ++ Reply source (MsgListCount (length (regionList w)))
                  :: map (fun r => Reply source (MsgItem r)) (regionList w)) w)
  ∧ show_protected_regions source w
    = (Returns tt,
       set_trace (trace w ++ Reply source (MsgProtectedCount (length (protectedRegionList w)))
                    :: map (fun r => Reply source (MsgItem r)) (protectedRegionList w)) w)
  ∧ show_history source w
    = (Returns tt,
       set_trace (trace w ++ Reply source (MsgHistoryCount (length (historyList w)))
                    :: map (fun p => Reply source (MsgHistoryItem (fst p) (snd p)))
                         (historyList w)) w).
Proof.
  split; [|split].
  - unfold show_region_list. rewrite bind_gets. unfold reply at 1.
    rewrite bind_emit, for_each_reply. cbn [trace set_trace].
    rewrite <- app_assoc. reflexivity.
  - unfold show_protected_regions. rewrite bind_gets. unfold reply at 1.
    rewrite bind_emit, for_each_reply. cbn [trace set_trace].
    rewrite <- app_assoc. reflexivity.
  - unfold show_history. rewrite bind_gets. unfold reply at 1.
    rewrite bind_emit.
    rewrite (for_each_ext _ _
               (fun p => reply source (MsgHistoryItem (fst p) (snd p))))
      by (intros [r flag]; reflexivity).
    rewrite for_each_reply. cbn [trace set_trace].
    rewrite <- app_assoc. reflexivity.
Qed.


Lemma in_step_persisted w w' : persisted w' = persisted w → in_step w → in_step w'.
Proof. unfold persisted, in_step. intros [= -> -> ->]. auto. Qed.

Lemma add_region_persisted source region : evolves (same (persisted (FS:=FS))) (add_region source region).
Proof. unfold add_region, reply, emit. frame. Qed.

Lemma delete_region_persisted source region :
  evolves (same (persisted (FS:=FS))) (delete_region source region).
Proof. unfold delete_region, remove_from_regionList, reply, emit. frame. Qed.

Lemma from_player_persisted action source :
  (∀ region, evolves (same (persisted (FS:=FS))) (action source region)) →
  evolves (same (persisted (FS:=FS))) (from_player action source).
Proof.
  intros H. unfold from_player. destruct (get_region_from_source source); [apply H|].
  unfold reply, emit. frame.
Qed.

Context `{!FileSystemLaws FS}.

Lemma save_in_step w w1 :
  save_protected_region_file w = (Returns tt, w1) → in_step w1.
Proof.
  intros H. destruct (stored_regions_saved w w1 H) as (_ & _ & Hs).
  pose proof (save_lists_kept w) as (_ & Hp & Hc & _). rewrite H in Hp, Hc.
  cbn [snd] in Hp, Hc. unfold in_step. rewrite Hc, Hp. exact Hs.
Qed.

Lemma protect_region_in_step source region w w' :
  in_step w → protect_region source region w = (Returns tt, w') → in_step w'.
Proof.
  intros Hw. rewrite protect_region_unfold.
  destruct (contains region (protectedRegionList w)).
  - intros [= <-]. exact Hw.
  - destruct (list_remove region (regionList w)); apply save_in_step.
Qed.

Lemma deprotect_region_in_step source region w w' :
  in_step w → deprotect_region source region w = (Returns tt, w') → in_step w'.
Proof.
  intros Hw. rewrite deprotect_region_unfold.
  destruct (list_remove region (protectedRegionList w)).
  - apply save_in_step.
  - intros [= <-]. exact Hw.
Qed.

(** X7. A command of the set manager that completes on a world whose
    protected-regions file is in step with memory leaves it in step: every
    change of the protected regions is followed by a save. *)
Theorem set_manager_keeps_file_in_step cmd w w' :
  set_manager_command cmd → in_step w →
  run_command cmd w = (Returns tt, w') → in_step w'.
Proof.
  intros Hcmd Hw Hrun.
  assert (Hframe : ∀ c : M FS unit, evolves (same (persisted (FS:=FS))) c →
                   c w = (Returns tt, w') → in_step w').
  { intros c Hc E. apply (in_step_persisted w); [|exact Hw].
    specialize (Hc w). rewrite E in Hc. exact Hc. }
  destruct cmd as [s [r|] | s [r|] | s | s [r|] | s [r|] | s | s | s | s | s
                  | s c]; cbn [run_command set_manager_command] in *;
    try contradiction.
  - eapply Hframe; [apply add_region_persisted | exact Hrun].
  - eapply Hframe; [apply from_player_persisted, add_region_persisted | exact Hrun].
  - eapply Hframe; [apply delete_region_persisted | exact Hrun].
  - eapply Hframe; [apply from_player_persisted, delete_region_persisted | exact Hrun].
  - eapply Hframe; [|exact Hrun]. unfold clean_region_list, reply, emit. frame.
  - eapply protect_region_in_step; eassumption.
  - unfold protect_region_from_player, from_player in Hrun.
    destruct (get_region_from_source s).
    + eapply protect_region_in_step; eassumption.
    + injection Hrun as <-. exact Hw.
  - eapply deprotect_region_in_step; eassumption.
  - unfold deprotect_region_from_player, from_player in Hrun.
    destruct (get_region_from_source s).
    + eapply deprotect_region_in_step; eassumption.
    + injection Hrun as <-. exact Hw.
  - eapply save_in_step. exact Hrun.
  - eapply Hframe; [|exact Hrun]. unfold show_region_list, reply, emit. frame.
  - eapply Hframe; [|exact Hrun]. unfold show_protected_regions, reply, emit. frame.
  - eapply Hframe; [|exact Hrun]. unfold show_history, reply, emit. frame.
Qed.

End More_set_manager.

Lemma protected_step_NoDup p p' : protected_step p p' → NoDup p → NoDup p'.
Proof.
  intros H Hnd. destruct H; auto.
  - apply NoDup_app. split; [assumption|]. split.
    + intros x Hx Hx'. apply list_elem_of_singleton in Hx'. congruence.
    + apply NoDup_singleton.
  - eapply list_remove_NoDup; eauto.
  - apply NoDup_nil_2.
Qed.

Lemma extend_regions_app_serialize acc good items :
  extend_regions acc (map serialize_region good ++ items)
  = extend_regions (acc ++ good) items.
Proof.
  revert acc. induction good as [|r good IH]; intros acc; cbn [map app extend_regions].
  - rewrite app_nil_r. reflexivity.
  - rewrite region_of_entry_serialize, IH, <- app_assoc. reflexivity.
Qed.

Section More_loading.
Context {FS : Type} `{!FileSystem FS}.
Implicit Type w : World FS.

Lemma load_historyList : evolves (same historyList) load_protected_region_file.
Proof. unfold load_protected_region_file, save_protected_region_file, emit. frame. Qed.

Lemma load_config_kept : evolves (same config) load_protected_region_file.
Proof. unfold load_protected_region_file, save_protected_region_file, emit. frame. Qed.

(** X8. What [on_load] leaves in the freshly imported module: the ledger
    of the old instance if it has one; its waiting regions only if it has
    both a ledger and waiting regions (a missing [historyList] skips both
    assignments); the loaded configuration; and as protected regions,
    whatever the old instance protected, none when the configuration
    points at no file, and all the entries of a file that holds an array
    of x/z/dim objects, in the order of the file. *)
Theorem on_load_lists old loaded placeholder (d : FS) a t :
  let w' := snd (on_load old loaded (module_globals placeholder d a t)) in
  historyList w' = default [] (old_historyList old)
  ∧ regionList w' = match old_historyList old with
                    | Some _ => default [] (old_regionList old)
                    | None => []
                    end
  ∧ config w' = loaded
  ∧ (fs_isfile d (protected_file_path loaded) = false →
       protectedRegionList w' = [])
  ∧ (∀ stored,
       fs_isfile d (protected_file_path loaded) = true →
       fs_read d (protected_file_path loaded)
       = inr (JsonText (JArr (map serialize_region stored))) →
       fst (on_load old loaded (module_globals placeholder d a t)) = Returns tt
       ∧ protectedRegionList w' = stored).
Proof.
  cbn zeta. rewrite on_load_unfold.
  rewrite (load_historyList _), (load_regionList _), (load_config_kept _).
  assert (Hd : disk (handed_over old loaded (module_globals placeholder d a t)) = d
               ∧ config (handed_over old loaded (module_globals placeholder d a t))
                 = loaded
               ∧ protectedRegionList
                   (handed_over old loaded (module_globals placeholder d a t)) = [])
    by (unfold handed_over; destruct (old_historyList old), (old_regionList old);
        repeat split; reflexivity).
  destruct Hd as (Hd & Hc & Hp).
  split; [|split; [|split; [|split]]].
  - unfold handed_over.
    destruct (old_historyList old), (old_regionList old); reflexivity.
  - unfold handed_over.
    destruct (old_historyList old), (old_regionList old); reflexivity.
  - exact Hc.
  - intros Hfile. rewrite load_missing by (rewrite Hd, Hc; exact Hfile). exact Hp.
  - intros stored Hfile Hread.
    rewrite (load_serialized _ stored) by (rewrite Hd, Hc; assumption).
    cbn [fst snd protectedRegionList set_protectedRegionList].
    rewrite Hp. split; reflexivity.
Qed.

(** X9. A file whose entries are regions up to an entry that cannot be
    subscripted with "x" (not an object, or an object without that member)
    makes the load raise at that entry; the regions before it have been
    appended and stay, the ones after it are not read. *)
Theorem load_stops_at_bad_entry w good bad rest e :
  fs_isfile (disk w) (protected_file_path (config w)) = true →
  fs_read (disk w) (protected_file_path (config w))
  = inr (JsonText (JArr (map serialize_region good ++ bad :: rest))) →
  json_getitem bad "x" = inl e →
  load_protected_region_file w
  = (Raises e, set_protectedRegionList (protectedRegionList w ++ good) w).
Proof.
  intros Hfile Hread Hbad. rewrite load_unfold. cbn zeta.
  rewrite Hfile, Hread. cbn [json_iter].
  rewrite extend_regions_app_serialize. cbn [extend_regions].
  unfold region_of_entry. rewrite Hbad. reflexivity.
Qed.

(** X10. For a player whose x and z coordinates are not negative or are
    whole numbers, [get_region_from_source] gives the region with the
    indices floor(x / 512) and floor(z / 512) in the player's dimension. *)
Theorem region_of_player_floor cx cy cz d :
  ((0 <= cx)%Q ∨ ∃ n, cx = inject_Z n) →
  ((0 <= cz)%Q ∨ ∃ n, cz = inject_Z n) →
  get_region_from_source (PlayerCommandSource cx cy cz d)
  = Some (Region.mk (Qfloor (cx / 512)) (Qfloor (cz / 512)) d).
Proof.
  intros Hx Hz. cbn [get_region_from_source].
  rewrite (region_index_floor cx Hx), (region_index_floor cz Hz). reflexivity.
Qed.

Lemma same_protected_step {B} (c : M FS B) w :
  evolves (same protectedRegionList) c →
  protected_step (protectedRegionList w) (protectedRegionList (snd (c w))).
Proof. intros H. rewrite (H w). apply ps_same. Qed.

Lemma protect_region_protected_step source region w :
  protected_step (protectedRegionList w)
    (protectedRegionList (snd (protect_region source region w))).
Proof.
  destruct (protect_region_effect source region w) as (_ & Hin & Hout).
  destruct (decide (region ∈ protectedRegionList w)) as [H|H].
  - rewrite (Hin H). apply ps_same.
  - destruct (Hout H) as [-> _]. apply ps_add. exact H.
Qed.

Lemma deprotect_region_protected_step source region w :
  protected_step (protectedRegionList w)
    (protectedRegionList (snd (deprotect_region source region w))).
Proof.
  rewrite deprotect_region_unfold.
  destruct (list_remove region (protectedRegionList w)) as [p'|] eqn:E.
  - match goal with
    | |- context [save_protected_region_file ?w0] =>
        destruct (save_lists_kept w0) as (_ & H & _)
    end. rewrite H. eapply ps_remove. exact E.
  - apply ps_same.
Qed.

Lemma from_player_protected_step action source w :
  (∀ region w, protected_step (protectedRegionList w)
                 (protectedRegionList (snd (action source region w)))) →
  protected_step (protectedRegionList w)
    (protectedRegionList (snd (from_player action source w))).
Proof.
  intros H. unfold from_player.
  destruct (get_region_from_source source); [apply H | apply ps_same].
Qed.

Lemma run_command_protected_step cmd w :
  protected_step (protectedRegionList w) (protectedRegionList (step w cmd)).
Proof.
  unfold step.
  destruct cmd as [s [r|] | s [r|] | s | s [r|] | s [r|] | s | s | s | s | s
                  | s c]; cbn [run_command].
  - apply same_protected_step. unfold add_region, reply, emit. frame.
  - apply from_player_protected_step. intros r w0.
    apply same_protected_step. unfold add_region, reply, emit. frame.
  - apply same_protected_step.
    unfold delete_region, remove_from_regionList, reply, emit. frame.
  - apply from_player_protected_step. intros r w0. apply same_protected_step.
    unfold delete_region, remove_from_regionList, reply, emit. frame.
  - apply same_protected_step. unfold clean_region_list, reply, emit. frame.
  - apply protect_region_protected_step.
  - apply from_player_protected_step, protect_region_protected_step.
  - apply deprotect_region_protected_step.
  - apply from_player_protected_step, deprotect_region_protected_step.
  - match goal with
    | |- context [deprotect_all_regions ?s ?w0] =>
        change (deprotect_all_regions s w0)
          with (save_protected_region_file
                  (set_trace (trace w0 ++ [Reply s MsgAllDeprotected])
                     (set_protectedRegionList [] w0)))
    end.
    match goal with
    | |- context [save_protected_region_file ?w0] =>
        destruct (save_lists_kept w0) as (_ & H & _)
    end. rewrite H. apply ps_clear.
  - apply same_protected_step. apply show_region_list_same. reflexivity.
  - apply same_protected_step. unfold show_protected_regions, reply, emit. frame.
  - apply same_protected_step. unfold show_history, reply, emit. frame.
  - apply same_protected_step. unfold bind, gets. intros w0. cbn [fst snd].
    destruct (enabled (config w0)).
    + apply region_update_protected.
    + reflexivity.
  - apply same_protected_step. unfold reload_config, load_config, reply, emit. frame.
Qed.

(** X11. No command makes a region occur twice among the protected
    regions: a region is appended only when [in] does not find it, and
    the other commands remove regions or leave the list alone. *)
Theorem protected_never_repeats w cmd :
  NoDup (protectedRegionList w) →
  NoDup (protectedRegionList (step w cmd)).
Proof.
  intros Hnd. eapply protected_step_NoDup;
    [apply run_command_protected_step | assumption].
Qed.

End More_loading.

Section More_update.
Context {FS : Type} `{!FileSystem FS}.
Implicit Type w : World FS.

(** X12. An update with nothing waiting still runs the whole cycle: the
    listing, the countdown with its four pauses, stop, the log line, the
    settle pause and start; the ledger is emptied and the file system is
    not touched. *)
Theorem update_of_nothing source w :
  regionList w = [] →
  region_update source w
  = (Returns tt,
     set_trace
       (trace w
        ++ [Reply source (MsgListCount 0);
            Broadcast source (MsgCountdownStart 5);
            Broadcast source (MsgCountdown 4); Sleep 1;
            Broadcast source (MsgCountdown 3); Sleep 1;
            Broadcast source (MsgCountdown 2); Sleep 1;
            Broadcast source (MsgCountdown 1); Sleep 1;
            ServerStop; ServerWaitForStart;
            LoggerInfo (LogUpdate source 0)]
        ++ match logfile w with
           | Some _ => []
           | None => [LoggerError LogNoLogFile]
           end
        ++ [Sleep 1; ServerStart])
       (set_logfile
          (match logfile w with
           | Some lines => Some (lines ++ [LogUpdate source 0])
           | None => None
           end)
          (set_historyList [] w))).
Proof.
  destruct w as [c l p h d a t]. cbn [regionList]. intros ->.
  destruct a as [lines|]; cbv [region_update show_region_list print_log reply emit
    bind gets modify for_each seq Nat.sub length ret
    config regionList protectedRegionList historyList disk logfile trace
    set_trace set_regionList set_historyList set_logfile];
    cbn [app]; rewrite <- ?app_assoc; reflexivity.
Qed.

(** X13. When every waiting region has a mapped dimension, an update
    completes whatever the file system does, empties the waiting list, and
    calls stop once and then start once. *)
Theorem update_restarts_server source w :
  Forall (mapped (config w)) (regionList w) →
  fst (region_update source w) = Returns tt
  ∧ regionList (snd (region_update source w)) = []
  ∧ server_calls (trace (snd (region_update source w)))
    = server_calls (trace w) ++ [ServerStop; ServerStart].
Proof.
  intros H. destruct (region_update_run source w H) as (H1 & H2 & _ & _ & _ & H3).
  auto.
Qed.

(** X15. Whether it completes or raises, an update leaves the protected
    regions and the configuration as they were, and the waiting list as it
    was or empty. *)
Theorem update_keeps_protected_and_config source w :
  protectedRegionList (snd (region_update source w)) = protectedRegionList w
  ∧ config (snd (region_update source w)) = config w
  ∧ (regionList (snd (region_update source w)) = regionList w
     ∨ regionList (snd (region_update source w)) = []).
Proof.
  split; [apply region_update_protected|]. split; [|apply region_update_regionList].
  revert w. change (evolves (same config) (region_update source)).
  unfold region_update, show_region_list, to_file_list, transfer_file, reply,
    print_log, emit.
  frame.
Qed.

End More_update.

Section More_transfer.
Context {FS : Type} `{!FileSystem FS}.
Implicit Type w : World FS.

(** X16. Handling one file of a region never raises and adds exactly one
    pair to the ledger.  The destination is removed only when the source is
    missing and the destination is there; in every other case, also when
    both are missing, the copy is attempted.  The pair's flag tells whether
    the operation went through, and the file system is the one the
    operation leaves behind, also when it raised. *)
Theorem transfer_file_cases r f w :
  let src := path_join (source_world_directory (config w)) f in
  let dst := path_join (destination_world_directory (config w)) f in
  let w' := snd (transfer_file r f w) in
  fst (transfer_file r f w) = Returns tt
  ∧ regionList w' = regionList w
  ∧ protectedRegionList w' = protectedRegionList w
  ∧ (fs_isfile (disk w) src = false → fs_isfile (disk w) dst = true →
       disk w' = fst (fs_remove (disk w) dst)
       ∧ historyList w'
         = historyList w ++ [(r, match snd (fs_remove (disk w) dst) with
                                 | None => true
                                 | Some _ => false
                                 end)])
  ∧ (fs_isfile (disk w) src = true ∨ fs_isfile (disk w) dst = false →
       disk w' = fst (fs_copyfile (disk w) src dst)
       ∧ historyList w'
         = historyList w ++ [(r, match snd (fs_copyfile (disk w) src dst) with
                                 | None => true
                                 | Some _ => false
                                 end)]).
Proof.
  intros src dst w'.
  destruct (transfer_file_run r f w) as (Hret & _ & Hl & Hp & Hh & Hd & _).
  fold w' in Hl, Hp, Hh, Hd. cbn [ledger fst snd] in Hh, Hd.
  split; [exact Hret|]. split; [exact Hl|]. split; [exact Hp|].
  rewrite Hh, Hd. unfold transfer_outcome. fold src dst. split.
  - intros -> ->. cbn [negb andb]. split; reflexivity.
  - intros Hcopy.
    replace (negb (fs_isfile (disk w) src) && fs_isfile (disk w) dst) with false
      by (destruct Hcopy as [-> | ->]; [reflexivity | rewrite andb_false_r; reflexivity]).
    split; reflexivity.
Qed.

(** X17. Adding a region that is neither waiting nor protected puts it at
    the end of the waiting list, and deleting it again restores the list;
    the protected regions and the file system are not touched. *)
Theorem add_then_delete source region w :
  region ∉ regionList w → region ∉ protectedRegionList w →
  let w1 := snd (add_region source region w) in
  let w2 := snd (delete_region source region w1) in
  regionList w1 = regionList w ++ [region]
  ∧ regionList w2 = regionList w
  ∧ protectedRegionList w2 = protectedRegionList w
  ∧ disk w2 = disk w.
Proof.
  intros Hl Hp. cbn zeta. rewrite (add_region_new _ _ _ Hl Hp). cbn [snd].
  rewrite delete_region_unfold. cbn [regionList set_trace set_regionList].
  rewrite <- (app_nil_r (regionList w ++ [region])), <- app_assoc.
  cbn [app]. rewrite (list_remove_split _ _ _ Hl), app_nil_r. auto.
Qed.

End More_transfer.

Lemma protect_then_deprotect_witness :
  let w1 := snd (protect_region console origin origin_waiting_world) in
  let w2 := snd (deprotect_region console origin w1) in
  protectedRegionList w2 = protectedRegionList origin_waiting_world
  ∧ regionList w2 = regionList w1
  ∧ (NoDup (regionList origin_waiting_world) → origin ∉ regionList w2).
Proof.
  apply (protect_then_deprotect console origin origin_waiting_world).
  intros H. vm_compute in H. inversion H.
Defined.

Lemma set_manager_keeps_file_in_step_witness :
  in_step (snd (run_command (Protect console (Some far)) origin_waiting_world)).
Proof.
  apply (set_manager_keeps_file_in_step (Protect console (Some far))
           origin_waiting_world).
  - exact I.
  - vm_compute. reflexivity.
  - vm_compute. reflexivity.
Defined.

Lemma load_stops_at_bad_entry_witness :
  load_protected_region_file partly_bad_world
  = (Raises TypeError,
     set_protectedRegionList (protectedRegionList partly_bad_world ++ [far])
       partly_bad_world).
Proof.
  apply (load_stops_at_bad_entry partly_bad_world [far] (JInt 1)
           [serialize_region origin] TypeError); vm_compute; reflexivity.
Defined.

Lemma region_of_player_floor_witness :
  get_region_from_source (PlayerCommandSource (2001 # 2) 64 (inject_Z (-513)) 0)
  = Some (Region.mk (Qfloor ((2001 # 2) / 512)) (Qfloor (inject_Z (-513) / 512)) 0).
Proof.
  apply region_of_player_floor.
  - left. vm_compute. discriminate.
  - right. exists (-513). reflexivity.
Defined.

Lemma protected_never_repeats_witness :
  NoDup (protectedRegionList (step synced_world (Protect console (Some far)))).
Proof.
  apply protected_never_repeats.
  rewrite (proj1 (proj2 synced_world_lists)). apply NoDup_singleton.
Defined.

(** The plugin loaded again on the file system of [two_protected_world],
    with a waiting region handed over, through [on_load_lists]. *)
Lemma on_load_lists_witness :
  let started :=
    on_load (mkOld (Some []) (Some [origin])) default_config
      (module_globals default_config (disk two_protected_world) (Some []) []) in
  fst started = Returns tt
  ∧ protectedRegionList (snd started) = [far; end_region].
Proof.
  cbn zeta.
  destruct (on_load_lists (mkOld (Some []) (Some [origin])) default_config
              default_config (disk two_protected_world) (Some []) [])
    as (_ & _ & _ & _ & Hfile).
  apply (Hfile [far; end_region]).
  - vm_compute. reflexivity.
  - exact (proj2 two_protected_world_lists).
Defined.

Lemma update_of_nothing_witness :
  fst (region_update console fresh_world) = Returns tt.
Proof.
  rewrite (update_of_nothing console fresh_world); [reflexivity|].
  vm_compute. reflexivity.
Defined.

Lemma update_restarts_server_witness :
  server_calls (trace (snd (region_update console abc_world)))
  = server_calls (trace abc_world) ++ [ServerStop; ServerStart].
Proof.
  apply (update_restarts_server console abc_world).
  destruct abc_world_lists as [-> ->].
  repeat apply Forall_cons_2; try apply Forall_nil_2;
    (eexists; vm_compute; reflexivity).
Defined.

Lemma region_update_raises_witness :
  ∃ key,
    fst (region_update console end_waiting_world) = Raises (KeyError key)
    ∧ regionList (snd (region_update console end_waiting_world))
      = regionList end_waiting_world
    ∧ server_calls (trace (snd (region_update console end_waiting_world)))
      = server_calls (trace end_waiting_world) ++ [ServerStop].
Proof.
  apply region_update_raises.
  apply Exists_cons_hd. intros [folders H]. vm_compute in H. discriminate H.
Defined.

Lemma add_then_delete_witness :
  regionList (snd (delete_region console far
                     (snd (add_region console far origin_waiting_world))))
  = regionList origin_waiting_world.
Proof.
  apply (add_then_delete console far origin_waiting_world).
  - intros H. vm_compute in H. apply list_elem_of_singleton in H. discriminate H.
  - intros H. vm_compute in H. inversion H.
Defined.
